(** * StoryTime TTS: the page pipeline of [src/App.tsx]

    A shallow embedding of the [App] component's logic: the page segmenter
    inside [parseFile], the sequential generation loop [generateAll], the
    preview [previewSample], [reset] and the derived [isComplete] flag.

    JavaScript strings are sequences of UTF-16 code units.  React state is
    a record; every [setX] call is an update that is queued, and the queue
    is committed as one batch when the running piece of code returns or
    suspends at an [await] (the automatic batching of React 18).  An
    [async] function is cut at its [await]s: the part up to the first one,
    and the parts that resume when the awaited promise has settled. *)

From Stdlib Require Import String Ascii DecimalString DecimalNat.
From Stdlib Require Import List Bool Arith NArith Lia.
Import ListNotations.

(** ** JavaScript strings *)

Module JsString.

Definition code_unit := N.
Definition jsstring := list code_unit.

(** An ASCII literal as a JavaScript string. *)
Definition lit (s : string) : jsstring :=
  List.map N_of_ascii (list_ascii_of_string s).

(** [String(n)] for a non-negative integer [n]. *)
Definition dec (n : nat) : jsstring :=
  lit (NilEmpty.string_of_uint (Nat.to_uint n)).

(** ECMAScript [WhiteSpace] and [LineTerminator] code points: what the
    regular expression class [\s] matches and what [trim] strips. *)
Definition is_space (c : code_unit) : bool :=
  ((9 <=? c) && (c <=? 13) || (c =? 32) || (c =? 160) || (c =? 5760)
   || (8192 <=? c) && (c <=? 8202) || (c =? 8232) || (c =? 8233)
   || (c =? 8239) || (c =? 8287) || (c =? 12288) || (c =? 65279))%N.

(** The class [\d]. *)
Definition is_digit (c : code_unit) : bool := ((48 <=? c) && (c <=? 57))%N.

(** A letter of the pattern under the [i] flag: [upper] is the code unit
    of the capital letter; only its two ASCII forms canonicalize to it. *)
Definition eq_ci (upper c : code_unit) : bool :=
  ((c =? upper) || (c =? upper + 32))%N.

Fixpoint drop_while (f : code_unit -> bool) (s : jsstring) : jsstring :=
  match s with
  | c :: s' => if f c then drop_while f s' else s
  | [] => []
  end.

(** Length of the longest prefix whose code units all satisfy [f]: what a
    greedy [+] consumes. *)
Fixpoint run_length (f : code_unit -> bool) (s : jsstring) : nat :=
  match s with
  | c :: s' => if f c then S (run_length f s') else 0
  | [] => 0
  end.

(** [String.prototype.trim]. *)
Definition trim (s : jsstring) : jsstring :=
  rev (drop_while is_space (rev (drop_while is_space s))).

(** [s.slice(0, n)]. *)
Definition slice0 (n : nat) (s : jsstring) : jsstring := firstn n s.

(** ** The marker pattern [/Page\s+\d+/i]

    [marker_len s] is the length of the match of the pattern anchored at
    the start of [s], if there is one.  The two classes are disjoint and
    the letters are neither, so the greedy quantifiers never backtrack to
    a different match: the white-space run and the digit run are both
    maximal. *)
Definition marker_len (s : jsstring) : option nat :=
  match s with
  | p :: a :: g :: e :: r =>
      if (eq_ci 80 p && eq_ci 65 a && eq_ci 71 g && eq_ci 69 e)%N then
        let w := run_length is_space r in
        let d := run_length is_digit (skipn w r) in
        if (0 <? w) && (0 <? d) then Some (4 + w + d) else None
      else None
  | _ => None
  end.

(** ** [text.split(/Page\s+\d+/i)]

    The loop of [RegExp.prototype[Symbol.split]]: [q] walks the string,
    [acc] holds the code units from the end [p] of the last match up to
    [q] (reversed).  A match at [q] closes the current fragment and moves
    both [p] and [q] past the match; [skip] counts the code units of the
    match still to be stepped over.  The pattern never matches the empty
    string, so the [e = p] test of the loop never fires; there are no
    capture groups, and the limit 2^32-1 is beyond what a string can
    hold. *)
Fixpoint split_go (skip : nat) (acc : jsstring) (s : jsstring)
  : list jsstring :=
  match s with
  | [] => [rev acc]
  | c :: s' =>
      match skip with
      | S k => split_go k acc s'
      | O =>
          match marker_len s with
          | Some (S n) => rev acc :: split_go n [] s'
          | _ => split_go 0 (c :: acc) s'
          end
      end
  end.

Definition split_marker (s : jsstring) : list jsstring := split_go 0 [] s.

End JsString.
Export JsString.

(** ** [types.ts] *)

Inductive Emotion := Calm | Happy | Sad | Shy | Gentle | Excited.
Inductive Tone := Soft | Warm | Friendly.
Inductive Speed := Slow | Normal | Fast.

Record StoryPage := mkPage { id : nat; content : jsstring }.

Definition Blob := list N.

Record GeneratedAudio := mkAudio {
  pageId : nat;
  blob : Blob;
  url : jsstring;
  filename : jsstring
}.

Record TTSConfig := mkConfig {
  emotion : Emotion;
  tone : Tone;
  speed : Speed
}.

(** ** The segmenter of [parseFile] (lines 42-47) *)

(** [parts.map((content, index) => ({ id: index + 1, content: content.trim() }))],
    with [index] the position counted from [i]. *)
Fixpoint number_pages (i : nat) (parts : list jsstring) : list StoryPage :=
  match parts with
  | [] => []
  | c :: parts' => mkPage (i + 1) (trim c) :: number_pages (S i) parts'
  end.

(** [p => p.trim().length > 0]. *)
Definition keeps (p : jsstring) : bool := 0 <? length (trim p).

Definition segment (text : jsstring) : list StoryPage :=
  let parts := filter keeps (split_marker text) in
  number_pages 0 parts.

(** ** React state of [App] (lines 27-37) *)

Record File := mkFile { file_name : jsstring }.

Record Progress := mkProgress { current : nat; total : nat }.

(** What the error slot holds at run time.  It is declared
    [string | null]; the value caught in [generateAll] is [any], and its
    [message] is stored as it is when it is truthy: a string, or a value
    of another kind (a number, an object, ...), which [v] stands for. *)
Inductive ErrorValue :=
| Text (m : jsstring)
| NotText (v : nat).

Coercion Text : jsstring >-> ErrorValue.

(** Truthiness of what the slot holds: only the empty string is falsy. *)
Definition truthy (v : ErrorValue) : bool :=
  match v with
  | Text [] => false
  | _ => true
  end.

Record AppState := mkApp {
  file : option File;
  pages : list StoryPage;
  config : TTSConfig;
  isProcessing : bool;
  results : list GeneratedAudio;
  error : option ErrorValue;
  progress : Progress
}.

Definition initial : AppState :=
  mkApp None [] (mkConfig Gentle Warm Normal) false [] None (mkProgress 0 0).

(** A call of a state setter.  [setResults] and [setProgress] take the
    updater function; [setResults([])] is the constant updater. *)
Inductive Update :=
| setFile (f : option File)
| setPages (ps : list StoryPage)
| setConfig (c : TTSConfig)
| setIsProcessing (b : bool)
| setResults (f : list GeneratedAudio -> list GeneratedAudio)
| setError (e : option ErrorValue)
| setProgress (f : Progress -> Progress).

Definition apply_update (u : Update) (s : AppState) : AppState :=
  match u with
  | setFile f =>
      mkApp f (pages s) (config s) (isProcessing s) (results s) (error s) (progress s)
  | setPages ps =>
      mkApp (file s) ps (config s) (isProcessing s) (results s) (error s) (progress s)
  | setConfig c =>
      mkApp (file s) (pages s) c (isProcessing s) (results s) (error s) (progress s)
  | setIsProcessing b =>
      mkApp (file s) (pages s) (config s) b (results s) (error s) (progress s)
  | setResults f =>
      mkApp (file s) (pages s) (config s) (isProcessing s) (f (results s)) (error s) (progress s)
  | setError e =>
      mkApp (file s) (pages s) (config s) (isProcessing s) (results s) e (progress s)
  | setProgress f =>
      mkApp (file s) (pages s) (config s) (isProcessing s) (results s) (error s) (f (progress s))
  end.

(** The queued updates of one uninterrupted piece of code are applied in
    order and rendered once. *)
Definition commit (ups : list Update) (s : AppState) : AppState :=
  fold_left (fun st u => apply_update u st) ups s.

(** ** The browser and the speech service, as seen from [App] *)

(** A thrown or rejected value, which can be anything.  [nullish] is
    [null] or [undefined]: reading a property of it throws.  [mkError
    message] is any other value; [message] is what [err.message] gives,
    [None] when that is falsy ([undefined] for a value without the
    property, [null], 0, ...). *)
Inductive JsError :=
| nullish
| mkError (message : option ErrorValue).

Inductive Settled (A : Type) :=
| Fulfilled (a : A)
| Rejected (e : JsError).
Arguments Fulfilled {A} a.
Arguments Rejected {A} e.

(** [speech_calls]: the calls of [ttsService.generateSpeech], oldest first.
    [object_urls]: the blob URL store; an entry is added by
    [URL.createObjectURL] and would leave only by [URL.revokeObjectURL],
    which [App] never calls.
    [console]: what [console.error] received.  [played]: the URLs handed to
    [new Audio(url).play()]. *)
Record Browser := mkBrowser {
  speech_calls : list (jsstring * TTSConfig);
  object_urls : list (jsstring * Blob);
  url_serial : nat;
  console : list JsError;
  played : list jsstring
}.

Definition fresh_browser : Browser := mkBrowser [] [] 0 [] [].

(** The call of the service is logged; how it settles is told to the
    piece of code that resumes. *)
Definition generateSpeech (text : jsstring) (cfg : TTSConfig) (w : Browser)
  : Browser :=
  mkBrowser (speech_calls w ++ [(text, cfg)]) (object_urls w) (url_serial w)
            (console w) (played w).

(** The browser mints a URL that is not in use; a serial number stands
    for the identifier it picks. *)
Definition blob_url (serial : nat) : jsstring := lit "blob:" ++ dec serial.

Definition createObjectURL (b : Blob) (w : Browser) : jsstring * Browser :=
  let u := blob_url (url_serial w) in
  (u, mkBrowser (speech_calls w) (object_urls w ++ [(u, b)])
                (S (url_serial w)) (console w) (played w)).

Definition console_error (e : JsError) (w : Browser) : Browser :=
  mkBrowser (speech_calls w) (object_urls w) (url_serial w)
            (console w ++ [e]) (played w).

Definition play (u : jsstring) (w : Browser) : Browser :=
  mkBrowser (speech_calls w) (object_urls w) (url_serial w)
            (console w) (played w ++ [u]).

(** [x || fallback]: the empty string is falsy like an absent value. *)
Definition or_default (x : option ErrorValue) (fallback : jsstring)
  : ErrorValue :=
  match x with
  | Some (Text (c :: m)) => Text (c :: m)
  | Some (NotText v) => NotText v
  | _ => Text fallback
  end.

(** ** [parseFile] (lines 39-56)

    [read] is how [selectedFile.text()] settled; everything after the
    [await] is one piece. *)
Definition parseFile (selectedFile : File) (read : Settled jsstring)
  : list Update :=
  match read with
  | Fulfilled text =>
      let newPages := segment text in
      [setPages newPages; setFile (Some selectedFile);
       setResults (fun _ => []); setError None]
  | Rejected _ =>
      [setError (Some (Text (lit "Failed to read the file. Please ensure it is a valid text file.")))]
  end.

(** ** [generateAll] (lines 64-92)

    The function suspends at the [await] of line 73.  [AwaitSpeech page
    rest config] is the suspended run: the page whose clip is awaited, the
    pages the [for] loop has still to visit, and the [config] the closure
    captured. *)
Inductive GenTask :=
| AwaitSpeech (page : StoryPage) (rest : list StoryPage) (cfg : TTSConfig).

Definition Piece := (list Update * Browser * option GenTask)%type.

(** The head of the [for ... of] loop: either the next call of
    [generateSpeech], or the loop is over and [finally] runs. *)
Definition loop_head (ps : list StoryPage) (cfg : TTSConfig) (w : Browser)
  : Piece :=
  match ps with
  | [] => ([setIsProcessing false], w, None)
  | page :: rest =>
      ([], generateSpeech (content page) cfg w, Some (AwaitSpeech page rest cfg))
  end.

(** From the call up to the first [await]. *)
Definition generateAll (s : AppState) (w : Browser) : Piece :=
  if length (pages s) =? 0 then ([], w, None)
  else
    let '(ups, w', t) := loop_head (pages s) (config s) w in
    ([setIsProcessing true;
      setResults (fun _ => []);
      setProgress (fun _ => mkProgress 0 (length (pages s)))] ++ ups, w', t).

(** From the settling of the awaited call up to the next [await] or the
    end of the function. *)
Definition generateAll_resume (t : GenTask) (o : Settled Blob) (w : Browser)
  : Piece :=
  let 'AwaitSpeech page rest cfg := t in
  match o with
  | Fulfilled b =>
      let '(u, w1) := createObjectURL b w in
      let newResult :=
        mkAudio (id page) b u (lit "Page_" ++ dec (id page) ++ lit ".wav") in
      let '(ups, w2, t') := loop_head rest cfg w1 in
      ([setResults (fun prev => prev ++ [newResult]);
        setProgress (fun prev => mkProgress (current prev + 1) (total prev))]
         ++ ups, w2, t')
  | Rejected err =>
      match err with
      | mkError message =>
          ([setError (Some (or_default message
                              (lit "An error occurred during audio generation.")));
            setIsProcessing false],
           console_error err w, None)
      | nullish =>
          (* [err.message] throws inside the [catch]: [setError] and
             [console.error] are not reached, [finally] still runs *)
          ([setIsProcessing false], w, None)
      end
  end.

(** A run with nothing else interleaved: [outs] is how the successive
    calls of [generateSpeech] settle.  The run has settled when no task is
    left. *)
Record Run := mkRun {
  ui : AppState;
  env : Browser;
  task : option GenTask
}.

Definition after (s : AppState) (p : Piece) : Run :=
  let '(ups, w, t) := p in mkRun (commit ups s) w t.

Fixpoint drive (outs : list (Settled Blob)) (r : Run) : Run :=
  match task r, outs with
  | Some t, o :: outs' =>
      drive outs' (after (ui r) (generateAll_resume t o (env r)))
  | _, _ => r
  end.

Definition runAll (outs : list (Settled Blob)) (s : AppState) (w : Browser)
  : Run :=
  drive outs (after s (generateAll s w)).

(** ** [previewSample] (lines 94-105) *)

Definition previewSample (s : AppState) (w : Browser)
  : list Update * Browser * bool :=
  match pages s with
  | [] => ([], w, false)
  | page0 :: _ =>
      let sampleText := slice0 100 (content page0) in
      ([], generateSpeech sampleText (config s) w, true)
  end.

Definition previewSample_resume (o : Settled Blob) (w : Browser)
  : list Update * Browser :=
  match o with
  | Fulfilled b =>
      let '(u, w1) := createObjectURL b w in
      ([], play u w1)
  | Rejected _ => ([setError (Some (Text (lit "Failed to preview audio.")))], w)
  end.

(** The whole preview, [o] being how its one call settles. *)
Definition preview (o : Settled Blob) (s : AppState) (w : Browser)
  : AppState * Browser :=
  let '(ups, w1, awaiting) := previewSample s w in
  if awaiting then
    let '(ups', w2) := previewSample_resume o w1 in
    (commit ups' (commit ups s), w2)
  else (commit ups s, w1).

(** ** [reset] (lines 116-122) and [isComplete] (line 124) *)

Definition reset : list Update :=
  [setFile None; setPages []; setResults (fun _ => []); setError None;
   setProgress (fun _ => mkProgress 0 0)].

Definition isComplete (s : AppState) : bool :=
  (0 <? length (results s))
  && (length (results s) =? length (pages s))
  && negb (isProcessing s).

(** ** What is rendered (lines 146, 162, 259, 277) *)

(** The upload card with the file input. *)
Definition shows_upload (s : AppState) : bool :=
  match file s with None => true | Some _ => false end.

(** The configuration panel, which holds the "Generate All Pages" and
    "Preview Voice" buttons and a reset button. *)
Definition shows_setup (s : AppState) : bool :=
  match file s with
  | Some _ =>
      (0 <? length (pages s)) && (length (results s) =? 0)
      && negb (isProcessing s)
  | None => false
  end.

(** The results card with its "Reset" / "Start New" button. *)
Definition shows_results (s : AppState) : bool :=
  (isProcessing s || (0 <? length (results s))) && (0 <? length (results s)).

(** ** What a marker is

    The strings [/Page\s+\d+/i] can match: the four letters in either
    case, at least one white-space code unit, at least one digit. *)
Definition is_marker (m : jsstring) : Prop :=
  exists p a g e ws ds,
    m = p :: a :: g :: e :: ws ++ ds
    /\ eq_ci 80%N p = true /\ eq_ci 65%N a = true
    /\ eq_ci 71%N g = true /\ eq_ci 69%N e = true
    /\ ws <> [] /\ forallb is_space ws = true
    /\ ds <> [] /\ forallb is_digit ds = true.

(** No marker occurs anywhere inside [s]. *)
Definition marker_free (s : jsstring) : Prop :=
  forall pre m post, is_marker m -> s <> pre ++ m ++ post.

(** [b] does not begin with a digit (so a digit run ending before [b] is
    maximal). *)
Definition no_leading_digit (b : jsstring) : Prop :=
  run_length is_digit b = 0.

(** A code unit that can stand neither in the white-space run, nor in the
    digit run, nor as second to fourth letter of the word: a match that
    has begun before it cannot extend over it. *)
Definition inert (x : code_unit) : Prop :=
  is_space x = false /\ is_digit x = false
  /\ eq_ci 65%N x = false /\ eq_ci 71%N x = false /\ eq_ci 69%N x = false.

(** No match begins inside a fragment of the split. *)
Definition unmatched (frag : jsstring) : Prop :=
  forall pre suf, frag = pre ++ suf -> suf <> [] ->
                  exists tail, marker_len (suf ++ tail) = None.

(** The clips a successful prefix of a run leaves in [results]: one per
    page, the URLs numbered from [serial]. *)
Fixpoint clips (serial : nat) (ps : list StoryPage) (bs : list Blob)
  : list GeneratedAudio :=
  match ps, bs with
  | p :: ps', b :: bs' =>
      mkAudio (id p) b (blob_url serial)
              (lit "Page_" ++ dec (id p) ++ lit ".wav")
        :: clips (S serial) ps' bs'
  | _, _ => []
  end.

(** The blobs of the calls that were fulfilled before the first
    rejection, or before [outs] ends. *)
Fixpoint fulfilled_prefix (outs : list (Settled Blob)) : list Blob :=
  match outs with
  | Fulfilled b :: outs' => b :: fulfilled_prefix outs'
  | _ => []
  end.

(** The state once the three setters at the top of [generateAll] are
    committed. *)
Definition started (s : AppState) : AppState :=
  mkApp (file s) (pages s) (config s) true [] (error s)
        (mkProgress 0 (length (pages s))).

(** State and browser after the loop has gone through the pages [done],
    their calls fulfilled with [bs]. *)
Definition advance (s : AppState) (w : Browser) (done : list StoryPage)
           (bs : list Blob) : AppState :=
  mkApp (file s) (pages s) (config s) (isProcessing s)
        (results s ++ clips (url_serial w) done bs) (error s)
        (mkProgress (length done + current (progress s)) (total (progress s))).

Definition advance_env (w : Browser) (done : list StoryPage) (bs : list Blob)
           (cfg : TTSConfig) : Browser :=
  mkBrowser (speech_calls w ++ map (fun p => (content p, cfg)) done)
            (object_urls w
               ++ map (fun a => (url a, blob a)) (clips (url_serial w) done bs))
            (length done + url_serial w) (console w) (played w).

(** State and browser once the [catch] and [finally] of [generateAll]
    have run for the rejected value [e]. *)
Definition failed (e : JsError) (s : AppState) : AppState :=
  mkApp (file s) (pages s) (config s) false (results s)
        (match e with
         | mkError message =>
             Some (or_default message
                     (lit "An error occurred during audio generation."))
         | nullish => error s
         end)
        (progress s).

Definition failed_env (e : JsError) (w : Browser) : Browser :=
  match e with
  | mkError _ => console_error e w
  | nullish => w
  end.

(** ** The component in use

    What is pending besides the rendered state: the suspended calls of
    [generateAll], the number of previews awaiting their clip, the files
    whose text is awaited by [parseFile]. *)
Record Session := mkSession {
  view : AppState;
  world : Browser;
  runs : list GenTask;
  previews : nat;
  reads : list File
}.

Definition start : Session := mkSession initial fresh_browser [] 0 [].

(** What can happen: the user acts on a control, or a pending promise
    settles.  An index picks one of the pending calls. *)
Inductive Event :=
| ChooseFile (f : File)
| TextSettled (i : nat) (o : Settled jsstring)
| ClickGenerate
| SpeechSettled (i : nat) (o : Settled Blob)
| ClickPreview
| PreviewSettled (o : Settled Blob)
| ClickReset
| DismissError
| ChooseEmotion (e : Emotion)
| ChooseTone (t : Tone)
| ChooseSpeed (sp : Speed).

Definition pending (t : option GenTask) : list GenTask :=
  match t with Some t => [t] | None => [] end.

(** [handle ev x] is the session after [ev], or [None] when the control
    is not rendered in [x] or no such call is pending. *)
Definition handle (ev : Event) (x : Session) : option Session :=
  let s := view x in
  match ev with
  | ChooseFile f =>
      if shows_upload s
      then Some (mkSession s (world x) (runs x) (previews x) (reads x ++ [f]))
      else None
  | TextSettled i o =>
      match nth_error (reads x) i with
      | Some f =>
          Some (mkSession (commit (parseFile f o) s) (world x) (runs x)
                          (previews x)
                          (firstn i (reads x) ++ skipn (S i) (reads x)))
      | None => None
      end
  | ClickGenerate =>
      if shows_setup s then
        let '(ups, w, t) := generateAll s (world x) in
        Some (mkSession (commit ups s) w (runs x ++ pending t) (previews x)
                        (reads x))
      else None
  | SpeechSettled i o =>
      match nth_error (runs x) i with
      | Some t =>
          let '(ups, w, t') := generateAll_resume t o (world x) in
          Some (mkSession (commit ups s) w
                          (firstn i (runs x) ++ pending t' ++ skipn (S i) (runs x))
                          (previews x) (reads x))
      | None => None
      end
  | ClickPreview =>
      if shows_setup s then
        let '(ups, w, awaiting) := previewSample s (world x) in
        Some (mkSession (commit ups s) w (runs x)
                        (if awaiting then S (previews x) else previews x)
                        (reads x))
      else None
  | PreviewSettled o =>
      match previews x with
      | S n =>
          let '(ups, w) := previewSample_resume o (world x) in
          Some (mkSession (commit ups s) w (runs x) n (reads x))
      | O => None
      end
  | ClickReset =>
      if shows_setup s || shows_results s
      then Some (mkSession (commit reset s) (world x) (runs x) (previews x)
                           (reads x))
      else None
  | DismissError =>
      match error s with
      | Some v =>
          if truthy v
          then Some (mkSession (commit [setError None] s) (world x) (runs x)
                               (previews x) (reads x))
          else None
      | None => None
      end
  | ChooseEmotion e =>
      if shows_setup s
      then Some (mkSession
                   (commit [setConfig (mkConfig e (tone (config s)) (speed (config s)))] s)
                   (world x) (runs x) (previews x) (reads x))
      else None
  | ChooseTone t =>
      if shows_setup s
      then Some (mkSession
                   (commit [setConfig (mkConfig (emotion (config s)) t (speed (config s)))] s)
                   (world x) (runs x) (previews x) (reads x))
      else None
  | ChooseSpeed sp =>
      if shows_setup s
      then Some (mkSession
                   (commit [setConfig (mkConfig (emotion (config s)) (tone (config s)) sp)] s)
                   (world x) (runs x) (previews x) (reads x))
      else None
  end.

Fixpoint play_events (evs : list Event) (x : Session) : option Session :=
  match evs with
  | [] => Some x
  | ev :: evs' =>
      match handle ev x with
      | Some x' => play_events evs' x'
      | None => None
      end
  end.

(** At most one call of [generateAll] is suspended, and [isProcessing]
    tells whether there is one. *)
Definition single_run (x : Session) : Prop :=
  length (runs x) <= 1
  /\ (isProcessing (view x) = true <-> runs x <> []).

(** Every URL held by a clip in [results] is in the blob URL store. *)
Definition clips_live (s : AppState) (w : Browser) : Prop :=
  forall a, In a (results s) -> In (url a, blob a) (object_urls w).

(** ** Sample data for the examples *)

Definition sample_text : jsstring :=
  lit "Page 1 Once Page 2 upon Page 3 a time".

Definition sample_blobs : list Blob := [[1%N]; [2%N]; [3%N]].

Definition sample_file : File := mkFile (lit "story.txt").

Definition other_file : File := mkFile (lit "next.txt").

(** The state once [sample_text] has been loaded from "story.txt". *)
Definition sample_state : AppState :=
  mkApp (Some sample_file) (segment sample_text)
        (mkConfig Gentle Warm Normal) false [] None (mkProgress 0 0).


(** The run on [sample_state] with all three calls fulfilled. *)
Definition sample_done : Run :=
  runAll (map Fulfilled sample_blobs) sample_state fresh_browser.

(** Load the story, generate all three clips, reset, load another file. *)
Definition session_with_reset : list Event :=
  [ChooseFile sample_file; TextSettled 0 (Fulfilled sample_text);
   ClickGenerate;
   SpeechSettled 0 (Fulfilled [1%N]); SpeechSettled 0 (Fulfilled [2%N]);
   SpeechSettled 0 (Fulfilled [3%N]);
   ClickReset;
   ChooseFile other_file; TextSettled 0 (Fulfilled (lit "Page 1 again"))].

(** Load the story, start generating, reset after the first clip while
    the second call is pending, let that call settle, load another
    file. *)
Definition session_reset_midrun : list Event :=
  [ChooseFile sample_file; TextSettled 0 (Fulfilled sample_text);
   ClickGenerate;
   SpeechSettled 0 (Fulfilled [1%N]);
   ClickReset;
   SpeechSettled 0 (Fulfilled [2%N]);
   ChooseFile other_file; TextSettled 0 (Fulfilled (lit "Page 1 again"))].

(** ** [downloadAll] (lines 107-114)

    The archive object of JSZip is a table from entry name to content
    that keeps the order of insertion.  [zip.file(name, data)] sets the
    entry [name]: a name already there keeps its place and gets the new
    content.  (The names [App] passes contain no slash, so no folder
    entry is made.) *)
Definition Zip := list (jsstring * Blob).

Definition jsstring_eqb (a b : jsstring) : bool :=
  if list_eq_dec N.eq_dec a b then true else false.

Fixpoint zip_file (name : jsstring) (data : Blob) (z : Zip) : Zip :=
  match z with
  | [] => [(name, data)]
  | (n, d) :: z' =>
      if jsstring_eqb n name then (name, data) :: z'
      else (n, d) :: zip_file name data z'
  end.

(** What [downloadAll] has built and handed over: the entries of the
    archive, and the arguments of [saveAs] when it was reached. *)
Record Download := mkDownload {
  archive : Zip;
  saved : option (Blob * jsstring)
}.

(** [generated] is how [zip.generateAsync] settled; its rejection is not
    caught, so [saveAs] is not called then. *)
Definition downloadAll (s : AppState) (generated : Settled Blob) : Download :=
  let zip :=
    fold_left (fun z res => zip_file (filename res) (blob res) z) (results s) [] in
  match generated with
  | Fulfilled content =>
      mkDownload zip (Some (content, lit "Story_Audio_Pack.zip"))
  | Rejected _ => mkDownload zip None
  end.

Definition entry (a : GeneratedAudio) : jsstring * Blob := (filename a, blob a).

Definition pack (rs : list GeneratedAudio) (z : Zip) : Zip :=
  fold_left (fun z res => zip_file (filename res) (blob res) z) rs z.

(** The "Download All (.ZIP)" button (line 296), inside the results
    card. *)
Definition shows_download (s : AppState) : bool :=
  shows_results s && isComplete s.

(** The card with the spinner and the progress bar (line 261). *)
Definition shows_progress (s : AppState) : bool :=
  (isProcessing s || (0 <? length (results s))) && isProcessing s.

(** The events that come from a control of the page, as opposed to the
    settling of a promise. *)
Definition user_event (ev : Event) : bool :=
  match ev with
  | TextSettled _ _ | SpeechSettled _ _ | PreviewSettled _ => false
  | _ => true
  end.

(** ** A story file written out again

    The text that the upload card asks for: each page under a line
    "Page <id>". *)
Definition padded (c : jsstring) : jsstring := [10%N] ++ c ++ [10%N].

Fixpoint rejoin (ps : list StoryPage) : jsstring :=
  match ps with
  | [] => []
  | p :: ps' => (lit "Page " ++ dec (id p)) ++ padded (content p) ++ rejoin ps'
  end.

(** The name [generateAll] gives to the clip of page [n]. *)
Definition clip_name (n : nat) : jsstring :=
  lit "Page_" ++ dec n ++ lit ".wav".

(** The suspended run goes through consecutive page ids, all above the
    ids of the clips already in [results]. *)
Definition task_ahead (rs : list GeneratedAudio) (t : GenTask) : Prop :=
  match t with
  | AwaitSpeech p rest _ =>
      map id (p :: rest) = seq (id p) (S (length rest))
      /\ forall a, In a rs -> pageId a < id p
  end.

Definition results_distinct (x : Session) : Prop :=
  map id (pages (view x)) = seq 1 (length (pages (view x)))
  /\ NoDup (map pageId (results (view x)))
  /\ Forall (fun a => filename a = clip_name (pageId a)) (results (view x))
  /\ Forall (task_ahead (results (view x))) (runs x).

(** ** A run inside a session *)

(** The calls of the one suspended run settling one after the other,
    with no other event in between. *)
Definition settling (outs : list (Settled Blob)) : list Event :=
  map (SpeechSettled 0) outs.

(** The session that holds the run [r] and nothing else of its own. *)
Definition session_of (r : Run) (pv : nat) (rd : list File) : Session :=
  mkSession (ui r) (env r) (pending (task r)) pv rd.




(** * Properties *)

Example segment_two_pages :
  segment (lit "Page 1
Once upon a time.
Page 2
The end.")
  = [mkPage 1 (lit "Once upon a time."); mkPage 2 (lit "The end.")].
Proof. vm_compute. reflexivity. Qed.

Example segment_no_marker :
  segment (lit "  hello world ") = [mkPage 1 (lit "hello world")].
Proof. vm_compute. reflexivity. Qed.

Example segment_blank : segment (lit "   ") = [].
Proof. vm_compute. reflexivity. Qed.

Example segment_glued_digits :
  segment (lit "one page7 two") = [mkPage 1 (lit "one page7 two")].
Proof. vm_compute. reflexivity. Qed.

Example segment_mixed_case :
  segment (lit "intro pAgE   12 body PAGE 3tail")
  = [mkPage 1 (lit "intro"); mkPage 2 (lit "body"); mkPage 3 (lit "tail")].
Proof. vm_compute. reflexivity. Qed.

(** ** Lists of code units *)

Section Runs.
Variable f : code_unit -> bool.

Lemma run_length_le s : run_length f s <= length s.
Proof. induction s as [|c s IH]; simpl; [lia|]. destruct (f c); simpl; lia. Qed.

Lemma run_length_app s r :
  forallb f s = true -> run_length f (s ++ r) = length s + run_length f r.
Proof.
  induction s as [|c s IH]; simpl; [reflexivity|].
  destruct (f c); simpl; [intros H; now rewrite IH | discriminate].
Qed.

(** A run inside [s] is not changed by appending something that starts
    with a code unit outside the class. *)
Lemma run_length_stop s x r :
  f x = false -> run_length f (s ++ x :: r) = run_length f s.
Proof.
  intros Hx. induction s as [|c s IH]; simpl; [now rewrite Hx|].
  destruct (f c); [now rewrite IH | reflexivity].
Qed.

Lemma drop_while_suffix s : exists l, s = l ++ drop_while f s.
Proof.
  induction s as [|c s [l IH]]; simpl; [now exists []|].
  destruct (f c); [exists (c :: l); simpl; now rewrite <- IH | now exists []].
Qed.

Lemma drop_while_head s c r : drop_while f s = c :: r -> f c = false.
Proof.
  induction s as [|d s IH]; simpl; [discriminate|].
  destruct (f d) eqn:E; [exact IH|]. intros H; injection H as -> _; exact E.
Qed.

Lemma drop_while_fixed c r : f c = false -> drop_while f (c :: r) = c :: r.
Proof. intros H; simpl; now rewrite H. Qed.
End Runs.

(** ** [trim] *)

Lemma trim_substring s : exists l r, s = l ++ trim s ++ r.
Proof.
  unfold trim.
  destruct (drop_while_suffix is_space s) as [l Hl].
  destruct (drop_while_suffix is_space (rev (drop_while is_space s))) as [r Hr].
  exists l, (rev r).
  rewrite <- rev_app_distr, <- Hr, rev_involutive. exact Hl.
Qed.

Lemma trim_last_not_space s r c : trim s = r ++ [c] -> is_space c = false.
Proof.
  unfold trim. intros H.
  apply (f_equal (@rev _)) in H. rewrite rev_involutive, rev_app_distr in H.
  simpl in H. now apply drop_while_head in H.
Qed.

Lemma trim_head_not_space s c r : trim s = c :: r -> is_space c = false.
Proof.
  unfold trim. intros H.
  destruct (drop_while_suffix is_space (rev (drop_while is_space s))) as [l Hl].
  apply (f_equal (@rev _)) in Hl.
  rewrite rev_involutive, rev_app_distr, H in Hl. simpl in Hl.
  now apply drop_while_head in Hl.
Qed.

Lemma trim_idem s : trim (trim s) = trim s.
Proof.
  destruct (trim s) as [|c r] eqn:E; [reflexivity|].
  pose proof (trim_head_not_space _ _ _ E) as Hc.
  destruct (exists_last (l := c :: r)) as [r' [d Hd]]; [discriminate|].
  rewrite Hd in E. pose proof (trim_last_not_space _ _ _ E) as Hlast.
  unfold trim. rewrite (drop_while_fixed is_space c r Hc).
  rewrite Hd, rev_app_distr.
  change (rev [d] ++ rev r') with (d :: rev r').
  rewrite (drop_while_fixed is_space d (rev r') Hlast).
  change (d :: rev r') with ([d] ++ rev r').
  rewrite rev_app_distr, rev_involutive. reflexivity.
Qed.

Lemma trim_not_blank s : trim s <> [] -> forallb is_space (trim s) = false.
Proof.
  destruct (trim s) as [|c r] eqn:E; [congruence|].
  intros _. simpl. now rewrite (trim_head_not_space _ _ _ E).
Qed.

(** ** Numbering *)

Lemma number_pages_ids parts : forall i,
  map id (number_pages i parts) = seq (i + 1) (length parts).
Proof.
  induction parts as [|c parts IH]; intros i; cbn [number_pages map length seq id];
    [reflexivity|].
  rewrite IH. replace (S i + 1) with (S (i + 1)) by lia. reflexivity.
Qed.

Lemma number_pages_length parts : forall i,
  length (number_pages i parts) = length parts.
Proof. induction parts; intros; simpl; auto. Qed.

Lemma number_pages_content parts : forall i,
  map content (number_pages i parts) = map trim parts.
Proof. induction parts as [|c parts IH]; intros i; simpl; [|rewrite IH]; reflexivity. Qed.

Lemma segment_contents text :
  map content (segment text) = map trim (filter keeps (split_marker text)).
Proof. apply number_pages_content. Qed.

Lemma segment_page_fragment text p :
  In p (segment text) ->
  exists frag, In frag (split_marker text) /\ keeps frag = true
               /\ content p = trim frag.
Proof.
  intros Hin. apply (in_map content) in Hin.
  rewrite segment_contents in Hin. apply in_map_iff in Hin.
  destruct Hin as [frag [Heq Hf]]. apply filter_In in Hf.
  exists frag. intuition.
Qed.

Lemma segment_ids text : map id (segment text) = seq 1 (length (segment text)).
Proof.
  unfold segment. rewrite number_pages_ids, number_pages_length. reflexivity.
Qed.

(** C4.  Whatever the text, every page that segmentation produces has a
    content that is not empty, is not made of white space only, and is
    the trimmed form of a fragment of the split (and is itself trimmed);
    and the ids of the [n] pages are 1, 2, ..., n in this order. *)
Theorem pages_nonblank_and_numbered (text : jsstring) :
  (forall p, In p (segment text) ->
     content p <> []
     /\ forallb is_space (content p) = false
     /\ trim (content p) = content p
     /\ exists frag, In frag (split_marker text) /\ content p = trim frag)
  /\ map id (segment text) = seq 1 (length (segment text)).
Proof.
  split.
  - intros p Hin.
    destruct (segment_page_fragment _ _ Hin) as [frag [Hf [Hk Hc]]].
    assert (Hne : trim frag <> []).
    { unfold keeps in Hk. apply Nat.ltb_lt in Hk.
      destruct (trim frag); simpl in Hk; [lia | discriminate]. }
    rewrite Hc. repeat split.
    + exact Hne.
    + now apply trim_not_blank.
    + apply trim_idem.
    + now exists frag.
  - apply segment_ids.
Qed.

Lemma pages_nonblank_and_numbered_witness :
  In (mkPage 2 (lit "upon")) (segment sample_text)
  /\ content (mkPage 2 (lit "upon")) <> []
  /\ map id (segment sample_text) = seq 1 (length (segment sample_text)).
Proof.
  assert (Hin : In (mkPage 2 (lit "upon")) (segment sample_text))
    by (vm_compute; auto).
  split; [exact Hin|]. split.
  - exact (proj1 (proj1 (pages_nonblank_and_numbered sample_text) _ Hin)).
  - exact (proj2 (pages_nonblank_and_numbered sample_text)).
Defined.

(** ** The marker pattern *)

Lemma eq_ci_cases u c : eq_ci u c = true -> c = u \/ c = (u + 32)%N.
Proof.
  unfold eq_ci. rewrite orb_true_iff, !N.eqb_eq. tauto.
Qed.

Lemma digit_cases c :
  is_digit c = true -> (48 <= c <= 57)%N.
Proof.
  unfold is_digit. rewrite andb_true_iff, !N.leb_le. tauto.
Qed.

Lemma digit_not_space c : is_digit c = true -> is_space c = false.
Proof.
  intros H. apply digit_cases in H.
  assert (E : (c = 48 \/ c = 49 \/ c = 50 \/ c = 51 \/ c = 52 \/ c = 53
               \/ c = 54 \/ c = 55 \/ c = 56 \/ c = 57)%N) by lia.
  repeat (destruct E as [-> | E]; [reflexivity|]). now subst.
Qed.

Lemma first_letter_inert x : eq_ci 80%N x = true -> inert x.
Proof.
  intros H. destruct (eq_ci_cases _ _ H) as [-> | ->]; vm_compute; tauto.
Qed.

Lemma is_marker_head m :
  is_marker m -> exists x m', m = x :: m' /\ inert x.
Proof.
  intros (p & a & g & e & ws & ds & -> & Hp & _).
  exists p, (a :: g :: e :: ws ++ ds). split; [reflexivity|].
  now apply first_letter_inert.
Qed.

Lemma firstn_run f s : forallb f (firstn (run_length f s) s) = true.
Proof.
  induction s as [|c s IH]; simpl; [reflexivity|].
  destruct (f c) eqn:E; simpl; [now rewrite E|reflexivity].
Qed.

Lemma skipn_run f s : run_length f (skipn (run_length f s) s) = 0.
Proof.
  induction s as [|c s IH]; simpl; [reflexivity|].
  destruct (f c) eqn:E; simpl; [exact IH | now rewrite E].
Qed.

(** A marker at the start of a string is matched, together with the
    digits that follow it. *)
Lemma is_marker_match m rest :
  is_marker m ->
  marker_len (m ++ rest) = Some (length m + run_length is_digit rest).
Proof.
  intros (p & a & g & e & ws & ds & -> & Hp & Ha & Hg & He & Hws & Hsp & Hds & Hdg).
  cbn [app marker_len]. rewrite Hp, Ha, Hg, He. cbn [andb].
  rewrite <- app_assoc.
  assert (Hw : run_length is_space (ws ++ ds ++ rest) = length ws).
  { rewrite run_length_app by exact Hsp.
    destruct ds as [|d ds]; [congruence|]. cbn [app run_length].
    cbn [forallb] in Hdg. apply andb_true_iff in Hdg as [Hd _].
    rewrite (digit_not_space _ Hd). lia. }
  rewrite Hw.
  rewrite skipn_app, skipn_all, Nat.sub_diag. cbn [app skipn].
  rewrite run_length_app by exact Hdg.
  destruct ws as [|w ws]; [congruence|]. destruct ds as [|d ds]; [congruence|].
  cbn [length Nat.ltb Nat.leb plus andb]. f_equal.
  rewrite length_app. cbn [length]. lia.
Qed.

(** What is matched at the start of a string is a marker, and the digit
    run is maximal. *)
Lemma marker_len_marker s n :
  marker_len s = Some n ->
  exists m rest, s = m ++ rest /\ is_marker m /\ length m = n
                 /\ no_leading_digit rest.
Proof.
  destruct s as [|p [|a [|g [|e r]]]]; try discriminate.
  cbn [marker_len].
  destruct (eq_ci 80%N p) eqn:Hp; [|discriminate].
  destruct (eq_ci 65%N a) eqn:Ha; [|discriminate].
  destruct (eq_ci 71%N g) eqn:Hg; [|discriminate].
  destruct (eq_ci 69%N e) eqn:He; [|discriminate]. cbn [andb].
  set (w := run_length is_space r). set (d := run_length is_digit (skipn w r)).
  destruct (0 <? w) eqn:Hw; [|discriminate].
  destruct (0 <? d) eqn:Hd; [|discriminate]. cbn [andb].
  intros H; injection H as <-.
  apply Nat.ltb_lt in Hw, Hd.
  exists (p :: a :: g :: e :: firstn w r ++ firstn d (skipn w r)),
         (skipn d (skipn w r)).
  assert (Lw : length (firstn w r) = w)
    by (apply firstn_length_le, run_length_le).
  assert (Ld : length (firstn d (skipn w r)) = d)
    by (apply firstn_length_le, run_length_le).
  repeat split.
  - cbn [app]. do 4 f_equal.
    rewrite <- app_assoc, firstn_skipn, firstn_skipn. reflexivity.
  - exists p, a, g, e, (firstn w r), (firstn d (skipn w r)).
    repeat split; try assumption.
    + intros E. rewrite E in Lw. simpl in Lw. lia.
    + apply firstn_run.
    + intros E. rewrite E in Ld. simpl in Ld. lia.
    + apply firstn_run.
  - cbn [length]. rewrite length_app, Lw, Ld. lia.
  - apply skipn_run.
Qed.

Lemma marker_len_bounds s n : marker_len s = Some n -> 6 <= n <= length s.
Proof.
  intros H. destruct (marker_len_marker _ _ H) as (m & rest & -> & Hm & <- & _).
  rewrite length_app.
  destruct Hm as (p & a & g & e & ws & ds & -> & _ & _ & _ & _ & Hws & _ & Hds & _).
  destruct ws; [congruence|]. destruct ds; [congruence|].
  cbn [length]. rewrite length_app. cbn [length]. lia.
Qed.

(** What follows the part of the string the scan is in does not change
    the matches that begin in this part, when it starts with an inert
    code unit. *)
Lemma marker_len_context a x r :
  a <> [] -> inert x -> marker_len (a ++ x :: r) = marker_len a.
Proof.
  intros Ha (Hsp & Hdg & HA & HG & HE).
  destruct a as [|c1 [|c2 [|c3 [|c4 t]]]]; [congruence| | | |].
  - destruct r as [|y [|z r]]; cbn [app marker_len]; try reflexivity.
    now rewrite HA, andb_false_r.
  - destruct r as [|y r]; cbn [app marker_len]; try reflexivity.
    now rewrite HG, andb_false_r.
  - cbn [app marker_len]. now rewrite HE, andb_false_r.
  - cbn [app marker_len].
    destruct (eq_ci 80%N c1 && eq_ci 65%N c2 && eq_ci 71%N c3 && eq_ci 69%N c4);
      [|reflexivity].
    rewrite run_length_stop by exact Hsp.
    pose proof (run_length_le is_space t) as Hle.
    rewrite skipn_app.
    replace (run_length is_space t - length t) with 0 by lia.
    cbn [skipn]. rewrite run_length_stop by exact Hdg. reflexivity.
Qed.

(** ** The split *)

Lemma split_go_skip m : forall acc b,
  split_go (length m) acc (m ++ b) = split_go 0 acc b.
Proof. induction m as [|c m IH]; intros acc b; [reflexivity | apply IH]. Qed.

(** A match at the head of the string closes the fragment in progress. *)
Lemma split_go_match acc s n :
  marker_len s = Some n ->
  split_go 0 acc s = rev acc :: split_go 0 [] (skipn n s).
Proof.
  intros H. destruct (marker_len_bounds _ _ H) as [Hlo Hhi].
  destruct s as [|c s]; [discriminate|]. cbn [split_go]. rewrite H.
  destruct n as [|n]; [lia|]. f_equal. cbn [skipn].
  rewrite <- (firstn_skipn n s) at 1.
  cbn [length] in Hhi.
  replace n with (length (firstn n s)) at 1 by (apply firstn_length_le; lia).
  apply split_go_skip.
Qed.

Lemma split_go_nomatch acc c s :
  marker_len (c :: s) = None ->
  split_go 0 acc (c :: s) = split_go 0 (c :: acc) s.
Proof. intros H. cbn [split_go]. now rewrite H. Qed.

(** The scan of [a] is the same when something inert follows [a]: all the
    fragments but the last are closed, the last is still in progress. *)
Lemma split_go_app x : inert x -> forall a k acc,
  k <= length a ->
  exists front lastfrag,
    split_go k acc a = front ++ [lastfrag]
    /\ forall r,
         split_go k acc (a ++ x :: r) = front ++ split_go 0 (rev lastfrag) (x :: r).
Proof.
  intros Hx. induction a as [|c a IH]; intros k acc Hk.
  - exists [], (rev acc). cbn [length] in Hk.
    replace k with 0 by lia. split; [reflexivity|].
    intros r. now rewrite rev_involutive.
  - destruct k as [|k].
    + destruct (marker_len (c :: a)) as [n|] eqn:E.
      * destruct (marker_len_bounds _ _ E) as [Hlo Hhi].
        destruct n as [|n]; [lia|]. cbn [length] in Hhi.
        destruct (IH n [] ltac:(lia)) as (front & lastfrag & H1 & H2).
        exists (rev acc :: front), lastfrag. split.
        -- cbn [split_go]. rewrite E, H1. reflexivity.
        -- intros r.
           pose proof (marker_len_context (c :: a) x r ltac:(discriminate) Hx) as C.
           rewrite E in C. rewrite <- app_comm_cons in *.
           cbn [split_go]. rewrite C, H2. reflexivity.
      * destruct (IH 0 (c :: acc) ltac:(lia)) as (front & lastfrag & H1 & H2).
        exists front, lastfrag. split.
        -- cbn [split_go]. rewrite E. exact H1.
        -- intros r.
           pose proof (marker_len_context (c :: a) x r ltac:(discriminate) Hx) as C.
           rewrite E in C. rewrite <- app_comm_cons in *.
           cbn [split_go]. rewrite C. apply H2.
    + cbn [length] in Hk.
      destruct (IH k acc ltac:(lia)) as (front & lastfrag & H1 & H2).
      exists front, lastfrag. split; [exact H1|].
      intros r. rewrite <- app_comm_cons. exact (H2 r).
Qed.

(** A maximal occurrence of a marker cuts the split in two. *)
Lemma split_marker_app a m b :
  is_marker m -> no_leading_digit b ->
  split_marker (a ++ m ++ b) = split_marker a ++ split_marker b.
Proof.
  intros Hm Hb. unfold split_marker.
  destruct (is_marker_head _ Hm) as (x & m' & E & Hx).
  destruct (split_go_app x Hx a 0 [] ltac:(lia)) as (front & lastfrag & H1 & H2).
  pose proof (is_marker_match m b Hm) as M. rewrite Hb, Nat.add_0_r in M.
  rewrite H1, <- app_assoc. cbn [app].
  subst m. rewrite <- app_comm_cons, H2, app_comm_cons.
  rewrite (split_go_match _ _ _ M), rev_involutive.
  rewrite skipn_app, skipn_all, Nat.sub_diag. reflexivity.
Qed.

Lemma split_go_unmatched : forall s k acc,
  (0 < k -> acc = []) ->
  (forall pre suf, rev acc = pre ++ suf -> suf <> [] ->
                   marker_len (suf ++ s) = None) ->
  forall frag, In frag (split_go k acc s) -> unmatched frag.
Proof.
  induction s as [|c s IH]; intros k acc Hk Hacc frag Hin.
  - destruct Hin as [<- | []]. intros pre suf E Hs.
    exists []. now apply Hacc with pre.
  - destruct k as [|k].
    + cbn [split_go] in Hin.
      assert (Step : marker_len (c :: s) = None ->
                     forall pre suf, rev (c :: acc) = pre ++ suf -> suf <> [] ->
                                     marker_len (suf ++ s) = None).
      { intros E pre suf Hrev Hs. cbn [rev] in Hrev.
        destruct (exists_last Hs) as (suf' & d & ->).
        rewrite app_assoc in Hrev. apply app_inj_tail in Hrev as [Hrev <-].
        rewrite <- app_assoc. cbn [app].
        destruct suf' as [|e suf']; [exact E|].
        apply Hacc with pre; [exact Hrev | discriminate]. }
      destruct (marker_len (c :: s)) as [[|n]|] eqn:E.
      * apply marker_len_bounds in E. lia.
      * destruct Hin as [<- | Hin].
        -- intros pre suf Hrev Hs. exists (c :: s). now apply Hacc with pre.
        -- apply (IH n []); [reflexivity | | exact Hin].
           intros pre suf Hrev Hs. destruct pre; destruct suf; try discriminate.
           congruence.
      * apply (IH 0 (c :: acc)); [lia | now apply Step | exact Hin].
    + cbn [split_go] in Hin. rewrite (Hk ltac:(lia)) in Hin.
      apply (IH k []); [reflexivity | | exact Hin].
      intros pre suf Hrev Hs. destruct pre; destruct suf; try discriminate.
      congruence.
Qed.

Lemma split_marker_unmatched text frag :
  In frag (split_marker text) -> unmatched frag.
Proof.
  apply split_go_unmatched; [reflexivity|].
  intros pre suf Hrev Hs. destruct pre; destruct suf; try discriminate.
  congruence.
Qed.

Lemma unmatched_marker_free frag : unmatched frag -> marker_free frag.
Proof.
  intros U pre m post Hm E.
  destruct (is_marker_head _ Hm) as (x & m' & Em & _).
  destruct (U pre (m ++ post) E) as [tail T]; [subst m; discriminate|].
  rewrite <- app_assoc, (is_marker_match m (post ++ tail) Hm) in T.
  discriminate.
Qed.

(** Without a marker nothing is cut. *)
Lemma split_go_free : forall s acc,
  (forall pre suf, s = pre ++ suf -> marker_len suf = None) ->
  split_go 0 acc s = [rev acc ++ s].
Proof.
  induction s as [|c s IH]; intros acc H.
  - cbn [split_go]. now rewrite app_nil_r.
  - rewrite split_go_nomatch by (apply (H []); reflexivity).
    rewrite IH.
    + cbn [rev]. now rewrite <- app_assoc.
    + intros pre suf E. apply (H (c :: pre)). now rewrite E.
Qed.

Lemma split_marker_free s : marker_free s -> split_marker s = [s].
Proof.
  intros F. unfold split_marker. rewrite split_go_free; [reflexivity|].
  intros pre suf E. destruct (marker_len suf) as [n|] eqn:M; [|reflexivity].
  destruct (marker_len_marker _ _ M) as (m & rest & -> & Hm & _).
  exfalso. exact (F pre m rest Hm E).
Qed.

Lemma segment_app a m b :
  is_marker m -> no_leading_digit b ->
  map content (segment (a ++ m ++ b))
  = map content (segment a) ++ map content (segment b).
Proof.
  intros Hm Hb.
  rewrite !segment_contents, (split_marker_app a m b Hm Hb).
  now rewrite filter_app, map_app.
Qed.

Lemma segment_content_marker_free text p :
  In p (segment text) -> marker_free (content p).
Proof.
  intros Hin.
  destruct (segment_page_fragment _ _ Hin) as (frag & Hf & _ & Hc).
  pose proof (unmatched_marker_free _ (split_marker_unmatched _ _ Hf)) as F.
  destruct (trim_substring frag) as (l & r & E).
  intros pre m post Hm Hp. rewrite Hc in Hp.
  apply (F (l ++ pre) m (post ++ r) Hm).
  rewrite E at 1. rewrite Hp, <- !app_assoc. reflexivity.
Qed.

Lemma glued_digits_no_match p a g e d rest :
  is_digit d = true -> marker_len (p :: a :: g :: e :: d :: rest) = None.
Proof.
  intros Hd. cbn [marker_len run_length].
  rewrite (digit_not_space _ Hd).
  now destruct (eq_ci 80%N p && eq_ci 65%N a && eq_ci 71%N g && eq_ci 69%N e).
Qed.

(** C3 as the specification words it fails: in "one page7 two" the digit
    follows the word directly, the text is not cut there and the marker
    stays in the content of the one page. *)
Lemma glued_marker_is_no_delimiter :
  segment (lit "one page7 two") = [mkPage 1 (lit "one " ++ lit "page7" ++ lit " two")]
  /\ map content (segment (lit "one page7 two")) <> [lit "one"; lit "two"].
Proof. split; [vm_compute; reflexivity | vm_compute; discriminate]. Qed.

(** C3, amended.  The delimiter is the word "Page" in any mix of cases,
    followed by at least one white-space code unit and then at least one
    digit.  Every maximal occurrence of it cuts the text: the fragments of
    [a ++ m ++ b] are those of [a] followed by those of [b], and so are the
    page contents; a text without marker is one fragment.  The marker is
    dropped: no page content contains one.  Where a digit follows the word
    directly, as in "page7", the pattern does not match. *)
Theorem spaced_marker_splits_and_is_dropped :
  (forall a m b, is_marker m -> no_leading_digit b ->
     split_marker (a ++ m ++ b) = split_marker a ++ split_marker b
     /\ map content (segment (a ++ m ++ b))
        = map content (segment a) ++ map content (segment b))
  /\ (forall s, marker_free s -> split_marker s = [s])
  /\ (forall text p, In p (segment text) -> marker_free (content p))
  /\ (forall p a g e d rest,
        is_digit d = true -> marker_len (p :: a :: g :: e :: d :: rest) = None).
Proof.
  repeat split.
  - now apply split_marker_app.
  - now apply segment_app.
  - apply split_marker_free.
  - apply segment_content_marker_free.
  - apply glued_digits_no_match.
Qed.

Lemma spaced_marker_splits_and_is_dropped_witness :
  is_marker (lit "pAgE   42")
  /\ no_leading_digit (lit " two")
  /\ split_marker (lit "one " ++ lit "pAgE   42" ++ lit " two")
     = split_marker (lit "one ") ++ split_marker (lit " two")
  /\ marker_len (lit "page7 two") = None.
Proof.
  assert (Hm : is_marker (lit "pAgE   42")).
  { exists 112%N, 65%N, 103%N, 69%N, [32%N; 32%N; 32%N], [52%N; 50%N].
    repeat split; try reflexivity; discriminate. }
  assert (Hb : no_leading_digit (lit " two")) by reflexivity.
  split; [exact Hm|]. split; [exact Hb|]. split.
  - exact (proj1 (proj1 spaced_marker_splits_and_is_dropped
                    (lit "one ") (lit "pAgE   42") (lit " two") Hm Hb)).
  - exact (proj2 (proj2 (proj2 spaced_marker_splits_and_is_dropped))
             112%N 97%N 103%N 101%N 55%N (lit " two") eq_refl).
Defined.

(** ** One run of [generateAll] *)

Lemma commit_app ups1 ups2 s : commit (ups1 ++ ups2) s = commit ups2 (commit ups1 s).
Proof. apply fold_left_app. Qed.

Lemma drive_settled outs s w : drive outs (mkRun s w None) = mkRun s w None.
Proof. now destruct outs. Qed.

Lemma advance_nil s w : advance s w [] [] = s.
Proof.
  destruct s as [f ps c b rs e [cur tot]]. unfold advance. cbn.
  now rewrite app_nil_r.
Qed.

Lemma advance_env_nil w cfg : advance_env w [] [] cfg = w.
Proof. destruct w. unfold advance_env. cbn. now rewrite !app_nil_r. Qed.

Lemma advance_cons s w cfg p b done bs :
  advance (advance s w [p] [b]) (advance_env w [p] [b] cfg) done bs
  = advance s w (p :: done) (b :: bs).
Proof.
  unfold advance, advance_env. cbn. rewrite <- app_assoc. cbn.
  do 2 f_equal. lia.
Qed.

Lemma advance_env_cons w cfg p b done bs :
  advance_env (advance_env w [p] [b] cfg) done bs cfg
  = advance_env w (p :: done) (b :: bs) cfg.
Proof.
  unfold advance_env. cbn. rewrite <- !app_assoc. cbn.
  f_equal. lia.
Qed.

(** One turn of the loop whose call is fulfilled. *)
Lemma loop_fulfilled s w p ps cfg b outs :
  drive (Fulfilled b :: outs) (after s (loop_head (p :: ps) cfg w))
  = drive outs (after (advance s w [p] [b])
                      (loop_head ps cfg (advance_env w [p] [b] cfg))).
Proof.
  destruct ps; cbn; unfold advance, advance_env; cbn;
    now rewrite Nat.add_1_r.
Qed.

(** The turn whose call is rejected ends the run. *)
Lemma loop_rejected s w p ps cfg e outs :
  drive (Rejected e :: outs) (after s (loop_head (p :: ps) cfg w))
  = mkRun (failed e s) (failed_env e (generateSpeech (content p) cfg w)) None.
Proof. destruct e; cbn; apply drive_settled. Qed.

Lemma loop_prefix : forall done bs, length bs = length done ->
  forall s w rest cfg outs,
    drive (map Fulfilled bs ++ outs) (after s (loop_head (done ++ rest) cfg w))
    = drive outs (after (advance s w done bs)
                        (loop_head rest cfg (advance_env w done bs cfg))).
Proof.
  induction done as [|p done IH]; intros [|b bs] Hlen; try discriminate;
    intros s w rest cfg outs.
  - now rewrite advance_nil, advance_env_nil.
  - cbn [map app]. rewrite loop_fulfilled, IH by (simpl in Hlen; lia).
    now rewrite advance_cons, advance_env_cons.
Qed.

Lemma runAll_started outs s w :
  pages s <> [] ->
  runAll outs s w
  = drive outs (after (started s) (loop_head (pages s) (config s) w)).
Proof.
  intros Hp. unfold runAll, generateAll.
  destruct (pages s) as [|p ps] eqn:E; [congruence|].
  unfold started. cbn. rewrite ?E. reflexivity.
Qed.

Lemma clips_pageId : forall ps bs n,
  length bs = length ps -> map pageId (clips n ps bs) = map id ps.
Proof.
  induction ps as [|p ps IH]; intros [|b bs] n H; try discriminate;
    [reflexivity|].
  cbn. f_equal. apply IH. simpl in H. lia.
Qed.

(** The results at any point of a run are the clips of the calls
    fulfilled so far, whatever [results] held before. *)
Lemma drive_results : forall outs ps s w cfg,
  results (ui (drive outs (after s (loop_head ps cfg w))))
  = results s ++ clips (url_serial w) ps (fulfilled_prefix outs).
Proof.
  induction outs as [|[b|e] outs IH]; intros [|p ps] s w cfg;
    try (cbn; now rewrite ?drive_settled, app_nil_r).
  - rewrite loop_fulfilled, IH. cbn. now rewrite <- app_assoc.
  - rewrite loop_rejected. cbn. now rewrite app_nil_r.
Qed.


Lemma runAll_all_fulfilled s w bs :
  pages s <> [] -> length bs = length (pages s) ->
  runAll (map Fulfilled bs) s w
  = mkRun (mkApp (file s) (pages s) (config s) false
                 (clips (url_serial w) (pages s) bs) (error s)
                 (mkProgress (length (pages s)) (length (pages s))))
          (advance_env w (pages s) bs (config s)) None.
Proof.
  intros Hp Hlen. rewrite runAll_started by exact Hp.
  pose proof (loop_prefix (pages s) bs Hlen (started s) w [] (config s) [])
    as L.
  rewrite !app_nil_r in L. rewrite L. cbn. now rewrite Nat.add_0_r.
Qed.

Lemma runAll_no_pages outs s w : pages s = [] -> runAll outs s w = mkRun s w None.
Proof.
  intros E. unfold runAll, generateAll. rewrite E. cbn. apply drive_settled.
Qed.

Lemma generateAll_suspends s w p ps :
  pages s = p :: ps ->
  after s (generateAll s w)
  = mkRun (started s) (generateSpeech (content p) (config s) w)
          (Some (AwaitSpeech p ps (config s))).
Proof. intros E. unfold generateAll, started. rewrite E. cbn. now rewrite E. Qed.

Lemma runAll_results outs s w :
  pages s <> [] ->
  results (ui (runAll outs s w))
  = clips (url_serial w) (pages s) (fulfilled_prefix outs).
Proof. intros Hp. rewrite runAll_started by exact Hp. now rewrite drive_results. Qed.

(** C10.  A run started on a non-empty page list has, at its first
    suspension (one call made, not yet settled), empty [results],
    progress 0 of [pages.length] and [isProcessing] set; from then on
    [results] holds only the clips of this run, whatever it held before,
    and nothing at all when the first call is rejected. *)
Theorem new_run_discards_old_results s w :
  pages s <> [] ->
  let r0 := after s (generateAll s w) in
  results (ui r0) = []
  /\ progress (ui r0) = mkProgress 0 (length (pages s))
  /\ isProcessing (ui r0) = true
  /\ (exists p ps, pages s = p :: ps
                   /\ task r0 = Some (AwaitSpeech p ps (config s))
                   /\ speech_calls (env r0)
                      = speech_calls w ++ [(content p, config s)])
  /\ (forall outs,
        results (ui (runAll outs s w))
        = clips (url_serial w) (pages s) (fulfilled_prefix outs))
  /\ (forall e more, results (ui (runAll (Rejected e :: more) s w)) = []).
Proof.
  intros Hp r0. subst r0.
  assert (Hall : forall outs,
             results (ui (runAll outs s w))
             = clips (url_serial w) (pages s) (fulfilled_prefix outs))
    by (intros outs; now apply runAll_results).
  assert (Hrej : forall e more,
             results (ui (runAll (Rejected e :: more) s w)) = []).
  { intros e more. rewrite Hall. cbn. now destruct (pages s). }
  assert (Hfirst : exists p ps, pages s = p :: ps)
    by (destruct (pages s) as [|p ps]; [congruence | now exists p, ps]).
  destruct Hfirst as (p & ps & E).
  rewrite (generateAll_suspends s w p ps E).
  cbn [ui env task started results progress isProcessing].
  split; [reflexivity|]. split; [reflexivity|]. split; [reflexivity|].
  split; [|split; assumption].
  exists p, ps. repeat split. exact E.
Qed.

Lemma new_run_discards_old_results_witness :
  pages (ui sample_done) <> []
  /\ length (results (ui sample_done)) = 3
  /\ results (ui (after (ui sample_done)
                        (generateAll (ui sample_done) (env sample_done)))) = []
  /\ results (ui (runAll [Rejected (mkError (Some (Text (lit "quota"))))]
                         (ui sample_done) (env sample_done))) = [].
Proof.
  assert (Hp : pages (ui sample_done) <> []) by (vm_compute; discriminate).
  pose proof (new_run_discards_old_results (ui sample_done) (env sample_done) Hp)
    as T.
  split; [exact Hp|]. split; [vm_compute; reflexivity|]. split.
  - exact (proj1 T).
  - exact (proj2 (proj2 (proj2 (proj2 (proj2 T)))) _ []).
Defined.

(** C7.  [isComplete] holds exactly when there are as many results as
    pages, there is at least one page, and no run is in progress. *)
Theorem isComplete_iff s :
  isComplete s = true
  <-> length (results s) = length (pages s)
      /\ length (pages s) > 0
      /\ isProcessing s = false.
Proof.
  unfold isComplete.
  rewrite !andb_true_iff, Nat.ltb_lt, Nat.eqb_eq, negb_true_iff.
  intuition lia.
Qed.

(** ** The preview *)

(** C9 as the specification words it fails: a preview whose call is
    rejected writes the error slot. *)
Lemma failed_preview_sets_error :
  error sample_state = None
  /\ error (fst (preview (Rejected (mkError None)) sample_state fresh_browser))
     = Some (Text (lit "Failed to preview audio.")).
Proof. split; vm_compute; reflexivity. Qed.

(** C9, amended.  With a non-empty page list the preview calls the speech
    service exactly once, with the first 100 code units at most of the
    first page's content, and leaves [pages], [results], [progress],
    [isProcessing], [config] and [file] as they were.  When the call is
    fulfilled the whole state is unchanged; when it is rejected [error]
    becomes "Failed to preview audio.".  Without pages no call is made
    and nothing changes. *)
Theorem preview_calls_once_and_frames o s w :
  let s' := fst (preview o s w) in
  let w' := snd (preview o s w) in
  (pages s = [] -> s' = s /\ w' = w)
  /\ (forall p ps, pages s = p :: ps ->
        speech_calls w' = speech_calls w ++ [(slice0 100 (content p), config s)]
        /\ length (slice0 100 (content p)) <= 100
        /\ content p = slice0 100 (content p) ++ skipn 100 (content p))
  /\ pages s' = pages s /\ results s' = results s
  /\ progress s' = progress s /\ isProcessing s' = isProcessing s
  /\ config s' = config s /\ file s' = file s
  /\ (forall b, o = Fulfilled b -> s' = s)
  /\ (forall e, o = Rejected e -> pages s <> [] ->
        error s' = Some (Text (lit "Failed to preview audio."))).
Proof.
  assert (Hcall : forall p,
            length (slice0 100 (content p)) <= 100
            /\ content p = slice0 100 (content p) ++ skipn 100 (content p)).
  { intros p. unfold slice0. split; [apply firstn_le_length|].
    now rewrite firstn_skipn. }
  unfold preview, previewSample.
  destruct (pages s) as [|p ps] eqn:E.
  - cbn. repeat split; try reflexivity; try discriminate; congruence.
  - destruct o as [b|e]; cbn -[slice0 skipn].
    + repeat split; try reflexivity; try discriminate; try exact E;
        match goal with
        | H : _ :: _ = _ :: _ |- _ => injection H as <- <-
        end;
        first [reflexivity | apply Hcall].
    + repeat split; try reflexivity; try discriminate; try exact E;
        match goal with
        | H : _ :: _ = _ :: _ |- _ => injection H as <- <-
        end;
        first [reflexivity | apply Hcall].
Qed.

Lemma preview_calls_once_and_frames_witness :
  speech_calls (snd (preview (Fulfilled [7%N]) sample_state fresh_browser))
  = speech_calls fresh_browser
      ++ [(slice0 100 (lit "Once"), config sample_state)]
  /\ fst (preview (Fulfilled [7%N]) sample_state fresh_browser) = sample_state.
Proof.
  assert (E : pages sample_state = [mkPage 1 (lit "Once"); mkPage 2 (lit "upon");
                                    mkPage 3 (lit "a time")])
    by (vm_compute; reflexivity).
  pose proof (preview_calls_once_and_frames (Fulfilled [7%N]) sample_state
                fresh_browser) as T.
  split.
  - exact (proj1 (proj1 (proj2 T) _ _ E)).
  - exact (proj1 (proj2 (proj2 (proj2 (proj2 (proj2 (proj2 (proj2 (proj2 T))))))))
             [7%N] eq_refl).
Defined.

(** ** The session as a whole *)

(** A property kept by every event holds in every session that events
    lead to. *)
Lemma play_events_invariant (P : Session -> Prop) :
  (forall ev x x', P x -> handle ev x = Some x' -> P x') ->
  forall evs x x', P x -> play_events evs x = Some x' -> P x'.
Proof.
  intros Step. induction evs as [|ev evs IH]; intros x x' Hx H; cbn in H.
  - now injection H as <-.
  - destruct (handle ev x) as [x1|] eqn:E; [|discriminate].
    exact (IH x1 x' (Step ev x x1 Hx E) H).
Qed.

Lemma shows_setup_idle s :
  shows_setup s = true ->
  isProcessing s = false /\ pages s <> [] /\ results s = [].
Proof.
  unfold shows_setup. destruct (file s); [|discriminate].
  rewrite !andb_true_iff, Nat.ltb_lt, Nat.eqb_eq, negb_true_iff.
  intros [[Hp Hr] Hi]. repeat split; [exact Hi | | ].
  - destruct (pages s); [simpl in Hp; lia | discriminate].
  - now destruct (results s).
Qed.

Lemma parseFile_keeps_isProcessing f o s :
  isProcessing (commit (parseFile f o) s) = isProcessing s.
Proof. now destruct o. Qed.

Lemma single_run_idle x :
  single_run x -> isProcessing (view x) = false -> runs x = [].
Proof.
  intros [_ H] Hi. destruct (runs x) as [|t ts]; [reflexivity|].
  assert (isProcessing (view x) = true) by (apply H; discriminate).
  congruence.
Qed.

Lemma single_run_only x i t :
  single_run x -> nth_error (runs x) i = Some t ->
  runs x = [t] /\ i = 0 /\ isProcessing (view x) = true.
Proof.
  intros [Hlen H] Hn.
  destruct (runs x) as [|t0 [|t1 ts]] eqn:E; cbn in Hlen; try lia.
  - now destruct i.
  - destruct i as [|[|i]]; cbn in Hn; try discriminate.
    injection Hn as <-. repeat split. apply H. discriminate.
Qed.

Lemma handle_single_run ev x x' :
  single_run x -> handle ev x = Some x' -> single_run x'.
Proof.
  intros Inv. unfold handle.
  destruct ev as [f|i o| |i o| |o| | |e|t|sp].
  - destruct (shows_upload (view x)); [|discriminate].
    intros H; injection H as <-. exact Inv.
  - destruct (nth_error (reads x) i); [|discriminate].
    intros H; injection H as <-. destruct Inv as [H1 H2].
    split; cbn; [exact H1|]. now rewrite parseFile_keeps_isProcessing.
  - destruct (shows_setup (view x)) eqn:V; [|discriminate].
    destruct (shows_setup_idle _ V) as (Hi & Hp & _).
    unfold generateAll.
    destruct (pages (view x)) as [|p ps] eqn:E; [congruence|]. cbn.
    intros H; injection H as <-.
    unfold single_run. cbn. rewrite (single_run_idle _ Inv Hi). cbn.
    split; [lia|]. split; [discriminate | reflexivity].
  - destruct (nth_error (runs x) i) as [t|] eqn:Hn; [|discriminate].
    destruct (single_run_only _ _ _ Inv Hn) as (Hr & -> & Hi).
    rewrite Hr. destruct t as [p rest cfg].
    destruct o as [b|e]; [destruct rest as [|q rest] | destruct e]; cbn;
      intros H; injection H as <-; unfold single_run; cbn;
      (split; [lia|]); split; intros H; try discriminate; try congruence.
  - destruct (shows_setup (view x)); [|discriminate].
    unfold previewSample. destruct (pages (view x));
      intros H; injection H as <-; exact Inv.
  - destruct (previews x); [discriminate|].
    destruct o; cbn; intros H; injection H as <-; exact Inv.
  - destruct (shows_setup (view x) || shows_results (view x)); [|discriminate].
    intros H; injection H as <-. exact Inv.
  - destruct (error (view x)) as [v|]; [destruct (truthy v)|]; try discriminate.
    intros H; injection H as <-. exact Inv.
  - destruct (shows_setup (view x)); [|discriminate].
    intros H; injection H as <-. exact Inv.
  - destruct (shows_setup (view x)); [|discriminate].
    intros H; injection H as <-. exact Inv.
  - destruct (shows_setup (view x)); [|discriminate].
    intros H; injection H as <-. exact Inv.
Qed.

Lemma start_single_run : single_run start.
Proof. split; cbn; [lia|]. split; [discriminate | congruence]. Qed.




(** ** The blob URL store *)

Lemma handle_store_grows ev x x' :
  handle ev x = Some x' ->
  exists more, object_urls (world x') = object_urls (world x) ++ more.
Proof.
  unfold handle.
  destruct ev as [f|i o| |i o| |o| | |e|t|sp].
  - destruct (shows_upload (view x)); [|discriminate].
    intros H; injection H as <-. exists []. cbn. now rewrite app_nil_r.
  - destruct (nth_error (reads x) i); [|discriminate].
    intros H; injection H as <-. exists []. cbn. now rewrite app_nil_r.
  - destruct (shows_setup (view x)); [|discriminate].
    unfold generateAll.
    destruct (pages (view x)) as [|p ps]; cbn;
      intros H; injection H as <-; exists []; cbn; now rewrite app_nil_r.
  - destruct (nth_error (runs x) i) as [[p rest cfg]|]; [|discriminate].
    destruct o as [b|e]; [destruct rest as [|q rest] | destruct e]; cbn;
      intros H; injection H as <-; cbn;
      [eexists; reflexivity | eexists; reflexivity |
       exists []; now rewrite app_nil_r | exists []; now rewrite app_nil_r].
  - destruct (shows_setup (view x)); [|discriminate].
    unfold previewSample. destruct (pages (view x));
      intros H; injection H as <-; exists []; cbn; now rewrite app_nil_r.
  - destruct (previews x); [discriminate|].
    destruct o; cbn; intros H; injection H as <-; cbn;
      [eexists; reflexivity | exists []; now rewrite app_nil_r].
  - destruct (shows_setup (view x) || shows_results (view x)); [|discriminate].
    intros H; injection H as <-. exists []. cbn. now rewrite app_nil_r.
  - destruct (error (view x)) as [v|]; [destruct (truthy v)|]; try discriminate.
    intros H; injection H as <-. exists []. cbn. now rewrite app_nil_r.
  - destruct (shows_setup (view x)); [|discriminate].
    intros H; injection H as <-. exists []. cbn. now rewrite app_nil_r.
  - destruct (shows_setup (view x)); [|discriminate].
    intros H; injection H as <-. exists []. cbn. now rewrite app_nil_r.
  - destruct (shows_setup (view x)); [|discriminate].
    intros H; injection H as <-. exists []. cbn. now rewrite app_nil_r.
Qed.

Lemma handle_clips_live ev x x' :
  clips_live (view x) (world x) -> handle ev x = Some x' ->
  clips_live (view x') (world x').
Proof.
  intros Live. unfold handle.
  destruct ev as [f|i o| |i o| |o| | |e|t|sp].
  - destruct (shows_upload (view x)); [|discriminate].
    intros H; injection H as <-. exact Live.
  - destruct (nth_error (reads x) i); [|discriminate].
    intros H; injection H as <-.
    destruct o as [text|err]; cbn; [intros a [] | exact Live].
  - destruct (shows_setup (view x)); [|discriminate].
    unfold generateAll.
    destruct (pages (view x)) as [|p ps]; cbn;
      intros H; injection H as <-; [exact Live | intros a []].
  - destruct (nth_error (runs x) i) as [[p rest cfg]|]; [|discriminate].
    destruct o as [b|e]; [destruct rest as [|q rest] | destruct e]; cbn;
      intros H; injection H as <-; unfold clips_live; cbn;
      try exact Live;
      intros a Ha; apply in_app_iff in Ha as [Ha | [<- | []]];
      apply in_app_iff; [left; now apply Live | right; now left
                        | left; now apply Live | right; now left].
  - destruct (shows_setup (view x)); [|discriminate].
    unfold previewSample. destruct (pages (view x));
      intros H; injection H as <-; exact Live.
  - destruct (previews x); [discriminate|].
    destruct o as [b|err]; cbn; intros H; injection H as <-;
      unfold clips_live; cbn; [|exact Live].
    intros a Ha. apply in_app_iff. left. now apply Live.
  - destruct (shows_setup (view x) || shows_results (view x)); [|discriminate].
    intros H; injection H as <-. intros a [].
  - destruct (error (view x)) as [v|]; [destruct (truthy v)|]; try discriminate.
    intros H; injection H as <-. exact Live.
  - destruct (shows_setup (view x)); [|discriminate].
    intros H; injection H as <-. exact Live.
  - destruct (shows_setup (view x)); [|discriminate].
    intros H; injection H as <-. exact Live.
  - destruct (shows_setup (view x)); [|discriminate].
    intros H; injection H as <-. exact Live.
Qed.

(** C8 as the specification words it fails: after a complete run, a
    reset and the load of another file, [results] is empty and the three
    URLs made for the clips are still in the store. *)
Lemma reset_and_reload_leave_urls_live :
  exists x,
    play_events session_with_reset start = Some x
    /\ file (view x) = Some other_file
    /\ results (view x) = []
    /\ object_urls (world x)
       = [(lit "blob:0", [1%N]); (lit "blob:1", [2%N]); (lit "blob:2", [3%N])].
Proof.
  eexists. split; [vm_compute; reflexivity|].
  repeat split.
Qed.

(** C8, amended.  No URL is ever revoked.  A reset empties [results] and
    leaves the blob URL store as it is, and so does the load of a file;
    no event takes an entry out of the store; and every URL a clip in
    [results] carries is in the store, so the URLs made during a run
    outlive the reset or reload that drops their clips. *)
Theorem urls_are_never_revoked :
  (forall x x', handle ClickReset x = Some x' ->
     results (view x') = []
     /\ object_urls (world x') = object_urls (world x))
  /\ (forall i o x x', handle (TextSettled i o) x = Some x' ->
        object_urls (world x') = object_urls (world x))
  /\ (forall ev x x', handle ev x = Some x' ->
        exists more, object_urls (world x') = object_urls (world x) ++ more)
  /\ (forall evs x, play_events evs start = Some x ->
        clips_live (view x) (world x)).
Proof.
  split; [|split; [|split]].
  - intros x x'. unfold handle.
    destruct (shows_setup (view x) || shows_results (view x)); [|discriminate].
    intros H; injection H as <-. split; reflexivity.
  - intros i o x x'. unfold handle.
    destruct (nth_error (reads x) i); [|discriminate].
    intros H; injection H as <-. reflexivity.
  - exact handle_store_grows.
  - intros evs x H.
    refine (play_events_invariant (fun y => clips_live (view y) (world y))
              handle_clips_live evs start x _ H).
    intros a [].
Qed.

Lemma urls_are_never_revoked_witness :
  exists x x',
    play_events (firstn 6 session_with_reset) start = Some x
    /\ handle ClickReset x = Some x'
    /\ results (view x') = []
    /\ object_urls (world x') = object_urls (world x)
    /\ length (object_urls (world x)) = 3.
Proof.
  destruct (play_events (firstn 6 session_with_reset) start) as [x|] eqn:E;
    [|vm_compute in E; discriminate].
  destruct (handle ClickReset x) as [x'|] eqn:R.
  - exists x, x'. split; [reflexivity|]. split; [exact R|].
    destruct (proj1 urls_are_never_revoked x x' R) as [H1 H2].
    split; [exact H1|]. split; [exact H2|].
    vm_compute in E. injection E as <-. reflexivity.
  - vm_compute in E. injection E as <-. vm_compute in R. discriminate.
Defined.

(** ** Reset and file load *)

(** C6 as the specification words it fails: a file loaded after a reset
    that fell in the middle of a run comes with new pages, and the
    progress counters are neither zero nor touched by the load. *)
Lemma load_keeps_progress :
  exists x,
    play_events session_reset_midrun start = Some x
    /\ file (view x) = Some other_file
    /\ pages (view x) = [mkPage 1 (lit "again")]
    /\ results (view x) = []
    /\ progress (view x) = mkProgress 1 0.
Proof.
  eexists. split; [vm_compute; reflexivity|].
  repeat split.
Qed.

(** C6, amended.  [reset] is one transition to the state with no file,
    no pages, no results, no error and progress 0 of 0.  A file whose
    text could be read is loaded in one transition that stores the file,
    replaces [pages] by the segmentation of the text and clears [results]
    and [error]; the progress counters stay as they were.  A file that
    could not be read changes [error] alone.  [config] and [isProcessing]
    are never touched by either. *)
Theorem reset_and_load_transitions s :
  commit reset s
  = mkApp None [] (config s) (isProcessing s) [] None (mkProgress 0 0)
  /\ (forall f text,
        commit (parseFile f (Fulfilled text)) s
        = mkApp (Some f) (segment text) (config s) (isProcessing s) [] None
                (progress s))
  /\ (forall f e,
        commit (parseFile f (Rejected e)) s
        = mkApp (file s) (pages s) (config s) (isProcessing s) (results s)
                (Some (Text (lit "Failed to read the file. Please ensure it is a valid text file.")))
                (progress s)).
Proof. repeat split. Qed.

(** * Further properties of the segmenter *)

Lemma fragment_marker_free text : In text (split_marker text) -> marker_free text.
Proof.
  intros H. exact (unmatched_marker_free _ (split_marker_unmatched _ _ H)).
Qed.

(** X1.  A text without marker is one page, numbered 1, holding the
    whole text trimmed; or no page at all when the text is empty or white
    space only. *)
Theorem segment_without_marker text :
  marker_free text ->
  segment text
  = match trim text with
    | [] => []
    | _ :: _ => [mkPage 1 (trim text)]
    end.
Proof.
  intros F. unfold segment. rewrite (split_marker_free _ F).
  cbn [filter]. unfold keeps. destruct (trim text) eqn:E; cbn; [reflexivity|].
  now rewrite E.
Qed.

Lemma segment_without_marker_witness :
  marker_free (lit "  a page7, no more ")
  /\ segment (lit "  a page7, no more ") = [mkPage 1 (trim (lit "  a page7, no more "))].
Proof.
  assert (F : marker_free (lit "  a page7, no more "))
    by (apply fragment_marker_free; vm_compute; left; reflexivity).
  split; [exact F|]. exact (segment_without_marker _ F).
Defined.

(** X2.  The digits written in a marker play no part: with any other
    marker in its place the pages are the same, ids included. *)
Theorem marker_numeral_is_ignored a m m' b :
  is_marker m -> is_marker m' -> no_leading_digit b ->
  segment (a ++ m ++ b) = segment (a ++ m' ++ b).
Proof.
  intros Hm Hm' Hb. unfold segment.
  now rewrite (split_marker_app a m b Hm Hb), (split_marker_app a m' b Hm' Hb).
Qed.

Lemma marker_numeral_is_ignored_witness :
  is_marker (lit "Page 7") /\ is_marker (lit "page  1")
  /\ segment (lit "x " ++ lit "Page 7" ++ lit " y")
     = segment (lit "x " ++ lit "page  1" ++ lit " y").
Proof.
  assert (H7 : is_marker (lit "Page 7")).
  { exists 80%N, 97%N, 103%N, 101%N, [32%N], [55%N].
    repeat split; try reflexivity; discriminate. }
  assert (H1 : is_marker (lit "page  1")).
  { exists 112%N, 97%N, 103%N, 101%N, [32%N; 32%N], [49%N].
    repeat split; try reflexivity; discriminate. }
  split; [exact H7|]. split; [exact H1|].
  exact (marker_numeral_is_ignored (lit "x ") (lit "Page 7") (lit "page  1")
           (lit " y") H7 H1 eq_refl).
Defined.

(** Every fragment of the split is a piece of the text. *)
Lemma split_go_substring : forall s k acc,
  (0 < k -> acc = []) ->
  forall frag, In frag (split_go k acc s) ->
  exists l r, rev acc ++ s = l ++ frag ++ r.
Proof.
  induction s as [|c s IH]; intros k acc Hk frag Hin.
  - destruct Hin as [<- | []]. exists [], []. now rewrite !app_nil_r.
  - destruct k as [|k]; cbn [split_go] in Hin.
    + destruct (marker_len (c :: s)) as [[|n]|] eqn:E.
      * destruct (IH 0 (c :: acc) ltac:(lia) frag Hin) as (l & r & H).
        exists l, r. rewrite <- H. cbn [rev]. now rewrite <- app_assoc.
      * destruct Hin as [<- | Hin].
        -- exists [], (c :: s). reflexivity.
        -- destruct (IH n [] ltac:(reflexivity) frag Hin) as (l & r & H).
           cbn [rev app] in H. exists (rev acc ++ c :: l), r.
           rewrite H, <- app_assoc. reflexivity.
      * destruct (IH 0 (c :: acc) ltac:(lia) frag Hin) as (l & r & H).
        exists l, r. rewrite <- H. cbn [rev]. now rewrite <- app_assoc.
    + rewrite (Hk ltac:(lia)) in *.
      destruct (IH k [] ltac:(reflexivity) frag Hin) as (l & r & H).
      cbn [rev app] in *. exists (c :: l), r. now rewrite H.
Qed.

(** X3.  The content of every page is a contiguous piece of the text:
    the segmenter adds no code unit and joins nothing across a marker. *)
Theorem page_content_is_piece_of_text text p :
  In p (segment text) ->
  exists l r, text = l ++ content p ++ r.
Proof.
  intros Hin.
  destruct (segment_page_fragment _ _ Hin) as (frag & Hf & _ & Hc).
  destruct (split_go_substring text 0 [] ltac:(lia) frag Hf) as (l & r & H).
  destruct (trim_substring frag) as (l' & r' & E).
  cbn [rev app] in H. exists (l ++ l'), (r' ++ r).
  rewrite H, E at 1. rewrite Hc, <- !app_assoc. reflexivity.
Qed.

Lemma page_content_is_piece_of_text_witness :
  In (mkPage 2 (lit "upon")) (segment sample_text)
  /\ exists l r, sample_text = l ++ lit "upon" ++ r.
Proof.
  assert (Hin : In (mkPage 2 (lit "upon")) (segment sample_text))
    by (vm_compute; auto).
  split; [exact Hin|].
  exact (page_content_is_piece_of_text sample_text _ Hin).
Defined.

(** ** Decimal numerals *)

Lemma lit_inj s1 s2 : lit s1 = lit s2 -> s1 = s2.
Proof.
  unfold lit. intros H.
  rewrite <- (string_of_list_ascii_of_string s1),
          <- (string_of_list_ascii_of_string s2).
  f_equal. revert H.
  generalize (list_ascii_of_string s1) (list_ascii_of_string s2).
  induction l as [|a l IH]; intros [|b l'] H; try discriminate; [reflexivity|].
  cbn in H. injection H as Hab Hl. f_equal; [|now apply IH].
  rewrite <- (ascii_N_embedding a), <- (ascii_N_embedding b). now rewrite Hab.
Qed.

Lemma dec_inj n m : dec n = dec m -> n = m.
Proof.
  unfold dec. intros H. apply lit_inj in H.
  apply DecimalNat.Unsigned.to_uint_inj.
  pose proof (NilEmpty.usu (Nat.to_uint n)) as U. rewrite H in U.
  rewrite NilEmpty.usu in U. now injection U.
Qed.

Lemma uint_digits d : forallb is_digit (lit (NilEmpty.string_of_uint d)) = true.
Proof. induction d; cbn; auto. Qed.

Lemma dec_digits n : forallb is_digit (dec n) = true.
Proof. apply uint_digits. Qed.

Lemma dec_nonempty n : dec n <> [].
Proof.
  unfold dec. intros H.
  assert (E : NilEmpty.string_of_uint (Nat.to_uint n) = EmptyString)
    by (apply lit_inj; exact H).
  pose proof (NilEmpty.usu (Nat.to_uint n)) as U. rewrite E in U. cbn in U.
  injection U as U.
  pose proof (DecimalNat.Unsigned.of_to n) as O. rewrite <- U in O. cbn in O.
  subst n. discriminate.
Qed.

Lemma clip_name_inj n m : clip_name n = clip_name m -> n = m.
Proof.
  unfold clip_name. intros H.
  apply app_inv_head, app_inv_tail in H. now apply dec_inj.
Qed.

(** ** Writing the pages out and reading them again *)

Lemma page_line_is_marker n : is_marker (lit "Page " ++ dec n).
Proof.
  exists 80%N, 97%N, 103%N, 101%N, [32%N], (dec n).
  repeat split; try reflexivity; try discriminate.
  - apply dec_nonempty.
  - apply dec_digits.
Qed.

Lemma is_marker_last m : is_marker m -> exists m0 d, m = m0 ++ [d] /\ is_digit d = true.
Proof.
  intros (p & a & g & e & ws & ds & -> & _ & _ & _ & _ & _ & _ & Hds & Hdg).
  destruct (exists_last Hds) as (ds0 & d & ->).
  exists (p :: a :: g :: e :: ws ++ ds0), d. split.
  - cbn. now rewrite app_assoc.
  - rewrite forallb_app in Hdg. apply andb_true_iff in Hdg as [_ Hd].
    cbn in Hd. now rewrite andb_true_r in Hd.
Qed.

(** A line feed on either side brings no marker in. *)
Lemma padded_marker_free c : marker_free c -> marker_free (padded c).
Proof.
  intros F pre m post Hm E. unfold padded in E.
  destruct (is_marker_head _ Hm) as (x & m' & Ex & (Hsp & _)).
  destruct (is_marker_last _ Hm) as (m0 & d & Ed & Hd).
  destruct pre as [|c0 pre].
  - rewrite Ex in E. cbn in E. injection E as E _. subst x. discriminate.
  - cbn in E. injection E as _ E.
    destruct (exists_last (l := post)) as (post' & l & Hl).
    + intros ->. rewrite app_nil_r, Ed, app_assoc in E.
      apply app_inj_tail in E as [_ E]. subst d. discriminate.
    + subst post. rewrite !app_assoc in E. apply app_inj_tail in E as [E _].
      apply (F pre m post' Hm). now rewrite E, <- app_assoc.
Qed.

Lemma trim_padded c : c <> [] -> trim c = c -> trim (padded c) = c.
Proof.
  intros Hne Ht.
  destruct c as [|h t] eqn:Ec; [congruence|]. rewrite <- Ec in *.
  assert (Hh : is_space h = false)
    by (apply (trim_head_not_space c h t); rewrite Ht; exact Ec).
  destruct (exists_last Hne) as (t' & l & El).
  assert (Hl : is_space l = false)
    by (apply (trim_last_not_space c t' l); rewrite Ht; exact El).
  assert (D1 : drop_while is_space (padded c) = c ++ [10%N]).
  { unfold padded. rewrite Ec.
    change (drop_while is_space ([10%N] ++ (h :: t) ++ [10%N]))
      with (drop_while is_space (h :: t ++ [10%N])).
    now rewrite (drop_while_fixed is_space h _ Hh). }
  assert (D2 : drop_while is_space (rev (c ++ [10%N])) = rev c).
  { rewrite rev_app_distr.
    change (drop_while is_space (rev [10%N] ++ rev c))
      with (drop_while is_space (rev c)).
    rewrite El, rev_app_distr.
    change (rev [l] ++ rev t') with (l :: rev t').
    now rewrite (drop_while_fixed is_space l _ Hl). }
  unfold trim. now rewrite D1, D2, rev_involutive.
Qed.

Lemma split_marker_lead m b :
  is_marker m -> no_leading_digit b ->
  split_marker (m ++ b) = [] :: split_marker b.
Proof. intros Hm Hb. exact (split_marker_app [] m b Hm Hb). Qed.

Lemma split_rejoin ps :
  Forall (fun p => marker_free (content p)) ps ->
  split_marker (rejoin ps) = [] :: map (fun p => padded (content p)) ps.
Proof.
  induction 1 as [|p ps Hp Hps IH]; [reflexivity|].
  cbn [rejoin map].
  rewrite split_marker_lead by (apply page_line_is_marker || reflexivity).
  f_equal. destruct ps as [|q ps].
  - cbn [rejoin map]. rewrite app_nil_r.
    apply split_marker_free, padded_marker_free, Hp.
  - assert (IH' : split_marker (padded (content q) ++ rejoin ps)
                  = map (fun p => padded (content p)) (q :: ps)).
    { cbn [rejoin] in IH.
      rewrite split_marker_lead in IH
        by (apply page_line_is_marker || reflexivity).
      injection IH as IH. exact IH. }
    cbn [rejoin].
    rewrite split_marker_app by (apply page_line_is_marker || reflexivity).
    now rewrite IH', (split_marker_free _ (padded_marker_free _ Hp)).
Qed.

Lemma number_padded ps : forall i,
  Forall (fun p => content p <> [] /\ trim (content p) = content p) ps ->
  map id ps = seq (i + 1) (length ps) ->
  number_pages i (filter keeps (map (fun p => padded (content p)) ps)) = ps.
Proof.
  induction ps as [|p ps IH]; intros i Hkeep Hids; [reflexivity|].
  inversion Hkeep as [|? ? [Hne Ht] Hrest]; subst.
  cbn [map filter]. unfold keeps at 1.
  rewrite (trim_padded _ Hne Ht).
  destruct (content p) as [|c0 cs] eqn:Ec; [congruence|].
  cbn [length Nat.ltb Nat.leb number_pages]. rewrite <- Ec in *.
  rewrite (trim_padded _ Hne Ht).
  cbn [map length seq] in Hids. injection Hids as Hid Hids.
  f_equal.
  - destruct p as [n c]. cbn in *. now subst.
  - apply IH; [exact Hrest|]. rewrite Hids. reflexivity.
Qed.

(** X4.  Writing the pages of a text out under "Page <id>" lines and
    segmenting the result gives the same pages again. *)
Theorem segment_rejoin text : segment (rejoin (segment text)) = segment text.
Proof.
  assert (Hfree : Forall (fun p => marker_free (content p)) (segment text))
    by (apply Forall_forall; intros p; apply segment_content_marker_free).
  assert (Hkeep : Forall (fun p => content p <> [] /\ trim (content p) = content p)
                         (segment text)).
  { apply Forall_forall. intros p Hin.
    destruct (segment_page_fragment _ _ Hin) as (frag & _ & Hk & Hc).
    rewrite Hc. split; [|apply trim_idem].
    unfold keeps in Hk. apply Nat.ltb_lt in Hk.
    destruct (trim frag); [simpl in Hk; lia | discriminate]. }
  unfold segment at 1. rewrite (split_rejoin _ Hfree).
  cbn [filter]. change (keeps []) with false. cbn iota.
  apply number_padded; [exact Hkeep | apply segment_ids].
Qed.

(** * Further properties of a run *)

(** The four ways the loop can go on, as an induction principle for
    [drive]. *)
Lemma drive_cases (cfg : TTSConfig)
      (P : list (Settled Blob) -> list StoryPage -> AppState -> Browser -> Run -> Prop) :
  (forall outs s w,
     P outs [] s w (mkRun (apply_update (setIsProcessing false) s) w None)) ->
  (forall p ps s w,
     P [] (p :: ps) s w
       (mkRun s (generateSpeech (content p) cfg w) (Some (AwaitSpeech p ps cfg)))) ->
  (forall e outs p ps s w,
     P (Rejected e :: outs) (p :: ps) s w
       (mkRun (failed e s) (failed_env e (generateSpeech (content p) cfg w))
              None)) ->
  (forall b outs p ps s w r,
     P outs ps (advance s w [p] [b]) (advance_env w [p] [b] cfg) r ->
     P (Fulfilled b :: outs) (p :: ps) s w r) ->
  forall outs ps s w, P outs ps s w (drive outs (after s (loop_head ps cfg w))).
Proof.
  intros Hend Hwait Hrej Hok.
  induction outs as [|[b|e] outs IH]; intros [|p ps] s w.
  - apply (Hend [] s w).
  - apply Hwait.
  - cbn. rewrite ?drive_settled. apply Hend.
  - rewrite loop_fulfilled. apply Hok, IH.
  - cbn. rewrite ?drive_settled. apply Hend.
  - rewrite loop_rejected. apply Hrej.
Qed.

Lemma drive_frame cfg outs ps s w :
  let r := drive outs (after s (loop_head ps cfg w)) in
  file (ui r) = file s /\ pages (ui r) = pages s /\ config (ui r) = config s
  /\ total (progress (ui r)) = total (progress s)
  /\ current (progress (ui r))
     = current (progress s) + Nat.min (length (fulfilled_prefix outs)) (length ps).
Proof.
  cbv zeta. revert outs ps s w.
  apply (drive_cases cfg (fun outs ps s w r =>
    file (ui r) = file s /\ pages (ui r) = pages s /\ config (ui r) = config s
    /\ total (progress (ui r)) = total (progress s)
    /\ current (progress (ui r))
       = current (progress s)
         + Nat.min (length (fulfilled_prefix outs)) (length ps))).
  - intros outs s w. cbn. rewrite Nat.min_0_r. repeat split. lia.
  - intros p ps s w. cbn. repeat split. lia.
  - intros e outs p ps s w. destruct e; cbn; repeat split; lia.
  - intros b outs p ps s w r (Hf & Hp & Hc & Ht & Hcur). cbn in *.
    repeat split; try assumption. lia.
Qed.

Lemma drive_calls cfg outs ps s w :
  speech_calls (env (drive outs (after s (loop_head ps cfg w))))
  = speech_calls w
      ++ map (fun p => (content p, cfg))
             (firstn (S (length (fulfilled_prefix outs))) ps).
Proof.
  revert outs ps s w.
  apply (drive_cases cfg (fun outs ps s w r =>
    speech_calls (env r)
    = speech_calls w
        ++ map (fun p => (content p, cfg))
               (firstn (S (length (fulfilled_prefix outs))) ps))).
  - intros outs s w. cbn. now rewrite app_nil_r.
  - intros p ps s w. reflexivity.
  - intros e outs p ps s w. destruct e; reflexivity.
  - intros b outs p ps s w r H. rewrite H. cbn. now rewrite <- app_assoc.
Qed.

Lemma drive_settles cfg outs ps s w :
  let r := drive outs (after s (loop_head ps cfg w)) in
  (length outs = length (fulfilled_prefix outs) -> error (ui r) = error s)
  /\ (length ps <= length (fulfilled_prefix outs) ->
      task r = None /\ isProcessing (ui r) = false)
  /\ (forall p rest c, task r = Some (AwaitSpeech p rest c) ->
        c = cfg /\ skipn (length (fulfilled_prefix outs)) ps = p :: rest
        /\ isProcessing (ui r) = isProcessing s).
Proof.
  cbv zeta. revert outs ps s w.
  apply (drive_cases cfg (fun outs ps s w r =>
    (length outs = length (fulfilled_prefix outs) -> error (ui r) = error s)
    /\ (length ps <= length (fulfilled_prefix outs) ->
        task r = None /\ isProcessing (ui r) = false)
    /\ (forall p rest c, task r = Some (AwaitSpeech p rest c) ->
          c = cfg /\ skipn (length (fulfilled_prefix outs)) ps = p :: rest
          /\ isProcessing (ui r) = isProcessing s))).
  - intros outs s w. cbn. repeat split; discriminate.
  - intros p ps s w. cbn. repeat split; try lia.
    all: intros; try lia; match goal with
         | H : Some _ = Some _ |- _ => injection H as <- <- <-
         end; reflexivity.
  - intros e outs p ps s w. destruct e; cbn; repeat split; try discriminate; lia.
  - intros b outs p ps s w r (He & Hd & Ht). cbn in *.
    split; [|split].
    + intros H. apply He. lia.
    + intros H. apply Hd. lia.
    + exact Ht.
Qed.

Lemma clips_length_min : forall ps bs n,
  length (clips n ps bs) = Nat.min (length bs) (length ps).
Proof.
  induction ps as [|p ps IH]; intros [|b bs] n; cbn; try reflexivity.
  now rewrite IH.
Qed.

Lemma clips_app : forall ps bs bs' n,
  exists extra, clips n ps (bs ++ bs') = clips n ps bs ++ extra.
Proof.
  induction ps as [|p ps IH]; intros [|b bs] bs' n; cbn;
    try (eexists; reflexivity).
  destruct (IH bs bs' (S n)) as [extra E]. exists extra. now rewrite E.
Qed.

Lemma fulfilled_prefix_app outs more :
  exists bs, fulfilled_prefix (outs ++ more) = fulfilled_prefix outs ++ bs.
Proof.
  induction outs as [|[b|e] outs [bs IH]]; cbn.
  - eexists; reflexivity.
  - exists bs. now rewrite IH.
  - exists []. reflexivity.
Qed.

Lemma fulfilled_prefix_map bs : fulfilled_prefix (map Fulfilled bs) = bs.
Proof. induction bs as [|b bs IH]; cbn; [|rewrite IH]; reflexivity. Qed.

Lemma runAll_cases outs s w :
  (pages s = [] /\ runAll outs s w = mkRun s w None)
  \/ (pages s <> []
      /\ runAll outs s w
         = drive outs (after (started s) (loop_head (pages s) (config s) w))).
Proof.
  destruct (pages s) as [|p ps] eqn:E.
  - left. split; [reflexivity|]. now apply runAll_no_pages.
  - right. split; [discriminate|]. rewrite <- E. apply runAll_started.
    rewrite E. discriminate.
Qed.

(** X5.  A run never touches [file], [pages] or [config], and it never
    clears [error]: as long as no call is rejected the error slot keeps
    what it held before the run, so the message of an earlier failure is
    still there after a successful retry. *)
Theorem run_keeps_file_pages_config_error outs s w :
  file (ui (runAll outs s w)) = file s
  /\ pages (ui (runAll outs s w)) = pages s
  /\ config (ui (runAll outs s w)) = config s
  /\ (length outs = length (fulfilled_prefix outs) ->
      error (ui (runAll outs s w)) = error s).
Proof.
  destruct (runAll_cases outs s w) as [[_ ->] | [_ ->]]; [now cbn|].
  destruct (drive_frame (config s) outs (pages s) (started s) w)
    as (Hf & Hp & Hc & _).
  destruct (drive_settles (config s) outs (pages s) (started s) w) as (He & _).
  repeat split; try assumption.
Qed.

Lemma run_keeps_file_pages_config_error_witness :
  error (ui (runAll (map Fulfilled sample_blobs)
                    (commit [setError (Some (Text (lit "quota")))] sample_state)
                    fresh_browser))
  = Some (Text (lit "quota")).
Proof.
  exact (proj2 (proj2 (proj2
           (run_keeps_file_pages_config_error (map Fulfilled sample_blobs)
              (commit [setError (Some (Text (lit "quota")))] sample_state)
              fresh_browser))) eq_refl).
Defined.

(** All along a run, taken alone, on a non-empty page list, the progress counter
    is the number of results, the total is the number of pages and the
    counter does not exceed it; and while a call is awaited, it is the
    call for the page at index [progress.current], with the [config] of
    the moment the run began. *)
Lemma runAll_progress outs s w :
  pages s <> [] ->
  let r := runAll outs s w in
  current (progress (ui r)) = length (results (ui r))
  /\ total (progress (ui r)) = length (pages s)
  /\ current (progress (ui r)) <= total (progress (ui r))
  /\ (forall p rest c, task r = Some (AwaitSpeech p rest c) ->
        nth_error (pages s) (current (progress (ui r))) = Some p
        /\ c = config s).
Proof.
  intros Hp r. subst r. rewrite runAll_started by exact Hp.
  destruct (drive_frame (config s) outs (pages s) (started s) w)
    as (_ & _ & _ & Ht & Hcur).
  destruct (drive_settles (config s) outs (pages s) (started s) w)
    as (_ & _ & Hw).
  rewrite drive_results, Ht, Hcur. cbn [started results progress current total app].
  rewrite clips_length_min. repeat split; try lia.
  - destruct (Hw p rest c H) as (_ & Hs & _).
    assert (Hlt : length (fulfilled_prefix outs) < length (pages s)).
    { destruct (Nat.lt_ge_cases (length (fulfilled_prefix outs)) (length (pages s)))
        as [Hlt | Hge]; [exact Hlt|].
      rewrite skipn_all2 in Hs by exact Hge. discriminate. }
    rewrite Nat.min_l by lia. cbn [plus].
    rewrite <- (firstn_skipn (length (fulfilled_prefix outs)) (pages s)) at 1.
    rewrite nth_error_app2 by (rewrite firstn_length_le; lia).
    rewrite firstn_length_le by lia. rewrite Nat.sub_diag, Hs. reflexivity.
  - now destruct (Hw p rest c H).
Qed.

(** In a run taken alone, results are only ever appended and progress only grows: what a
    run shows after more calls have settled extends what it showed
    before. *)
Lemma runAll_appends outs more s w :
  (exists extra,
     results (ui (runAll (outs ++ more) s w))
     = results (ui (runAll outs s w)) ++ extra)
  /\ current (progress (ui (runAll outs s w)))
     <= current (progress (ui (runAll (outs ++ more) s w))).
Proof.
  destruct (fulfilled_prefix_app outs more) as [bs Hbs].
  destruct (runAll_cases outs s w) as [[E ->] | [Hp ->]].
  - rewrite runAll_no_pages by exact E. cbn. split; [|lia].
    exists []. now rewrite app_nil_r.
  - rewrite runAll_started by exact Hp. split.
    + rewrite !drive_results, Hbs.
      destruct (clips_app (pages s) (fulfilled_prefix outs) bs (url_serial w))
        as [extra E].
      exists extra. now rewrite E, app_assoc.
    + destruct (drive_frame (config s) outs (pages s) (started s) w)
        as (_ & _ & _ & _ & ->).
      destruct (drive_frame (config s) (outs ++ more) (pages s) (started s) w)
        as (_ & _ & _ & _ & ->).
      rewrite Hbs, length_app. lia.
Qed.

(** X8.  The calls a run makes are those for the first pages of the
    list, in the order of the list, one more than the number of calls
    fulfilled and never more than there are pages, each with the text of
    its page and the [config] of the moment the run began. *)
Theorem run_calls_in_page_order outs s w :
  speech_calls (env (runAll outs s w))
  = speech_calls w
      ++ map (fun p => (content p, config s))
             (firstn (S (length (fulfilled_prefix outs))) (pages s))
  /\ length (speech_calls (env (runAll outs s w)))
     <= length (speech_calls w) + length (pages s).
Proof.
  assert (H : speech_calls (env (runAll outs s w))
              = speech_calls w
                  ++ map (fun p => (content p, config s))
                         (firstn (S (length (fulfilled_prefix outs))) (pages s))).
  { destruct (runAll_cases outs s w) as [[E ->] | [Hp ->]].
    - rewrite E. cbn. now rewrite app_nil_r.
    - apply drive_calls. }
  split; [exact H|].
  rewrite H, length_app, length_map, length_firstn. lia.
Qed.

(** After any part of a run, taken alone, on a non-empty page list, [isComplete]
    holds exactly when the calls for all the pages have been fulfilled. *)
Lemma runAll_complete_iff outs s w :
  pages s <> [] ->
  (isComplete (ui (runAll outs s w)) = true
   <-> length (pages s) <= length (fulfilled_prefix outs)).
Proof.
  intros Hp. rewrite runAll_started by exact Hp.
  destruct (drive_frame (config s) outs (pages s) (started s) w)
    as (_ & Hpg & _).
  destruct (drive_settles (config s) outs (pages s) (started s) w)
    as (_ & Hd & _).
  unfold isComplete. rewrite Hpg, drive_results.
  cbn [started results pages app]. rewrite clips_length_min.
  rewrite !andb_true_iff, Nat.ltb_lt, Nat.eqb_eq, negb_true_iff.
  assert (Hn : 0 < length (pages s))
    by (destruct (pages s); [congruence | cbn; lia]).
  split.
  - intros [[_ H] _]. lia.
  - intros H. destruct (Hd H) as [_ Hi]. repeat split; [lia | lia | exact Hi].
Qed.

Lemma runAll_aborted s w pre pk post bs e more :
  pages s = pre ++ pk :: post -> length bs = length pre ->
  runAll (map Fulfilled bs ++ Rejected e :: more) s w
  = mkRun (failed e (advance (started s) w pre bs))
          (failed_env e (generateSpeech (content pk) (config s)
                           (advance_env w pre bs (config s))))
          None.
Proof.
  intros Hp Hlen.
  rewrite runAll_started by (rewrite Hp; destruct pre; discriminate).
  replace (loop_head (pages s)) with (loop_head (pre ++ pk :: post))
    by now rewrite Hp.
  rewrite loop_prefix by exact Hlen. apply loop_rejected.
Qed.

(** After a run, taken alone, that failed, with a file loaded: when the very
    first call was rejected the configuration panel with the generate
    button is rendered again, so the run can be retried; when some clips
    had been made the panel stays hidden and the results card with its
    reset button is rendered instead.  The download button and the
    upload card are rendered in neither case. *)
Lemma runAll_failed_controls s w pre pk post bs e more f :
  pages s = pre ++ pk :: post -> length bs = length pre ->
  file s = Some f ->
  let s' := ui (runAll (map Fulfilled bs ++ Rejected e :: more) s w) in
  shows_setup s' = (match pre with [] => true | _ :: _ => false end)
  /\ shows_results s' = (match pre with [] => false | _ :: _ => true end)
  /\ shows_download s' = false
  /\ shows_upload s' = false.
Proof.
  intros Hp Hlen Hf s'. subst s'.
  rewrite (runAll_aborted s w pre pk post bs e more Hp Hlen).
  unfold shows_download, shows_setup, shows_results, shows_upload, isComplete.
  cbn. rewrite Hf, Hp, length_app. cbn [length].
  destruct pre as [|p pre]; destruct bs as [|b bs]; try discriminate; cbn.
  - repeat split.
  - injection Hlen as Hlen.
    assert (E : (length (clips (S (url_serial w)) pre bs)
                 =? length pre + S (length post)) = false).
    { apply Nat.eqb_neq. rewrite clips_length_min. lia. }
    rewrite E. repeat split.
Qed.

(** * The archive of [downloadAll] *)

Lemma jsstring_eqb_eq a b : jsstring_eqb a b = true <-> a = b.
Proof.
  unfold jsstring_eqb. destruct (list_eq_dec N.eq_dec a b); split;
    congruence.
Qed.

Lemma zip_file_fresh name data z :
  ~ In name (map fst z) -> zip_file name data z = z ++ [(name, data)].
Proof.
  induction z as [|[n d] z IH]; intros H; cbn; [reflexivity|].
  destruct (jsstring_eqb n name) eqn:E.
  - apply jsstring_eqb_eq in E. exfalso. apply H. now left.
  - rewrite IH; [reflexivity|]. intros Hin. apply H. now right.
Qed.

Lemma zip_file_names name data z :
  map fst (zip_file name data z)
  = if existsb (fun n => jsstring_eqb n name) (map fst z)
    then map fst z else map fst z ++ [name].
Proof.
  induction z as [|[n d] z IH]; cbn; [reflexivity|].
  destruct (jsstring_eqb n name) eqn:E; cbn.
  - apply jsstring_eqb_eq in E. now subst.
  - rewrite IH. now destruct (existsb _ (map fst z)).
Qed.

Lemma pack_distinct : forall rs z,
  NoDup (map fst z ++ map filename rs) ->
  pack rs z = z ++ map entry rs.
Proof.
  induction rs as [|a rs IH]; intros z H; cbn; [now rewrite app_nil_r|].
  cbn [map] in H.
  rewrite zip_file_fresh.
  - unfold pack in IH. rewrite IH.
    + now rewrite <- app_assoc.
    + rewrite map_app, <- app_assoc. exact H.
  - apply NoDup_remove_2 in H. intros Hin. apply H, in_app_iff. now left.
Qed.

Lemma pack_names : forall rs z,
  NoDup (map fst z) ->
  NoDup (map fst (pack rs z))
  /\ (forall n, In n (map fst z) \/ In n (map filename rs) ->
                In n (map fst (pack rs z)))
  /\ length (pack rs z) <= length z + length rs.
Proof.
  induction rs as [|a rs IH]; intros z H; cbn.
  - repeat split; [exact H | intros n [Hn | []]; exact Hn | lia].
  - assert (Hz : NoDup (map fst (zip_file (filename a) (blob a) z))
                 /\ (forall n, In n (map fst z) \/ n = filename a ->
                               In n (map fst (zip_file (filename a) (blob a) z)))
                 /\ length (zip_file (filename a) (blob a) z) <= S (length z)).
    { rewrite <- (length_map fst (zip_file _ _ _)), <- (length_map fst z).
      rewrite zip_file_names.
      destruct (existsb _ (map fst z)) eqn:E.
      - repeat split; [exact H | | lia].
        intros n [Hn | ->]; [exact Hn|].
        apply existsb_exists in E as (m & Hm & Em).
        apply jsstring_eqb_eq in Em. now subst.
      - repeat split.
        + apply NoDup_app; [exact H | repeat constructor; intros [] |].
          intros n Hn [<- | []].
          assert (X : existsb (fun m => jsstring_eqb m (filename a)) (map fst z)
                      = true)
            by (apply existsb_exists; exists (filename a); split;
                [exact Hn | now apply jsstring_eqb_eq]).
          congruence.
        + intros n [Hn | ->]; apply in_app_iff; [now left | right; now left].
        + rewrite length_app. cbn. lia. }
    destruct Hz as (Hz1 & Hz2 & Hz3).
    destruct (IH _ Hz1) as (I1 & I2 & I3). repeat split.
    + exact I1.
    + intros n [Hn | [<- | Hn]]; apply I2.
      * left. apply Hz2. now left.
      * left. apply Hz2. now right.
      * now right.
    + unfold pack in I3. lia.
Qed.

Lemma archive_is_pack s generated :
  archive (downloadAll s generated) = pack (results s) [].
Proof. now destruct generated. Qed.

Lemma archive_entries_distinct s generated :
  NoDup (map filename (results s)) ->
  archive (downloadAll s generated) = map entry (results s).
Proof. intros H. rewrite archive_is_pack. now rewrite pack_distinct. Qed.

(** X11.  The archive never holds two entries under one name, it has an
    entry for the filename of every result, and no more entries than
    there are results; when the filenames of the results are all
    different it holds exactly one entry per result, in the order of
    [results], under the filename and with the blob of the result.  The
    archive is saved as "Story_Audio_Pack.zip" when it could be
    generated, and nothing is saved otherwise. *)
Theorem archive_entries s generated :
  NoDup (map fst (archive (downloadAll s generated)))
  /\ (forall a, In a (results s) ->
        In (filename a) (map fst (archive (downloadAll s generated))))
  /\ length (archive (downloadAll s generated)) <= length (results s)
  /\ (NoDup (map filename (results s)) ->
      archive (downloadAll s generated) = map entry (results s))
  /\ saved (downloadAll s generated)
     = match generated with
       | Fulfilled content => Some (content, lit "Story_Audio_Pack.zip")
       | Rejected _ => None
       end.
Proof.
  assert (A : archive (downloadAll s generated) = pack (results s) [])
    by now destruct generated.
  rewrite A.
  destruct (pack_names (results s) [] (NoDup_nil _)) as (H1 & H2 & H3).
  split; [exact H1|]. split; [|split; [exact H3|split]].
  - intros a Ha. apply H2. right. now apply in_map.
  - intros H. now rewrite pack_distinct.
  - now destruct generated.
Qed.

Lemma archive_entries_witness :
  NoDup (map filename (results (ui sample_done)))
  /\ archive (downloadAll (ui sample_done) (Fulfilled [0%N]))
     = map entry (results (ui sample_done)).
Proof.
  assert (H : NoDup (map filename (results (ui sample_done)))).
  { vm_compute. repeat constructor; cbn; intuition discriminate. }
  split; [exact H|].
  exact (proj1 (proj2 (proj2 (proj2
           (archive_entries (ui sample_done) (Fulfilled [0%N]))))) H).
Defined.

Lemma NoDup_map_injective {A B} (f : A -> B) l :
  (forall a b, f a = f b -> a = b) -> NoDup l -> NoDup (map f l).
Proof.
  intros Hf. induction 1 as [|a l Ha Hl IH]; cbn; constructor; [|exact IH].
  intros Hin. apply in_map_iff in Hin as (b & Hb & Hin).
  apply Hf in Hb. now subst.
Qed.

Lemma clips_filenames : forall ps bs n,
  map filename (clips n ps bs) = map clip_name (map pageId (clips n ps bs)).
Proof.
  induction ps as [|p ps IH]; intros [|b bs] n; cbn; try reflexivity.
  now rewrite IH.
Qed.

Lemma clips_entries : forall ps bs n,
  map entry (clips n ps bs)
  = map (fun pb => (clip_name (id (fst pb)), snd pb)) (combine ps bs).
Proof.
  induction ps as [|p ps IH]; intros [|b bs] n; cbn; try reflexivity.
  now rewrite IH.
Qed.

(** After a run, taken alone, in which every call was fulfilled, on pages with
    pairwise different ids, the download button is rendered and the
    archive holds exactly one entry per page, in page order, named
    "Page_<id>.wav" and holding the blob returned for that page. *)
Lemma runAll_download s w bs generated :
  NoDup (map id (pages s)) -> pages s <> [] ->
  length bs = length (pages s) ->
  let s' := ui (runAll (map Fulfilled bs) s w) in
  shows_download s' = true
  /\ archive (downloadAll s' generated)
     = map (fun pb => (clip_name (id (fst pb)), snd pb)) (combine (pages s) bs)
  /\ length (archive (downloadAll s' generated)) = length (pages s).
Proof.
  intros Hnd Hp Hlen s'. subst s'.
  rewrite (runAll_all_fulfilled s w bs Hp Hlen). cbn [ui].
  assert (Hn : 0 < length (pages s))
    by (destruct (pages s); [congruence | cbn; lia]).
  assert (A : archive (downloadAll
                (mkApp (file s) (pages s) (config s) false
                       (clips (url_serial w) (pages s) bs) (error s)
                       (mkProgress (length (pages s)) (length (pages s))))
                generated)
              = map entry (clips (url_serial w) (pages s) bs)).
  { apply archive_entries_distinct. cbn [results].
    rewrite clips_filenames, clips_pageId by exact Hlen.
    apply NoDup_map_injective; [exact clip_name_inj | exact Hnd]. }
  split; [|split].
  - unfold shows_download, shows_results, isComplete. cbn.
    rewrite clips_length_min, Hlen, Nat.min_id, Nat.eqb_refl.
    destruct (length (pages s)); [lia | reflexivity].
  - rewrite A. apply clips_entries.
  - rewrite A, length_map, clips_length_min. lia.
Qed.

(** * Further properties of the session *)

Lemma task_ahead_nil rs t : task_ahead rs t -> task_ahead [] t.
Proof. destruct t as [p rest c]. intros [H _]. split; [exact H | intros a []]. Qed.

Lemma results_distinct_cleared x s' rn :
  results_distinct x ->
  map id (pages s') = seq 1 (length (pages s')) ->
  results s' = [] -> rn = runs x ->
  forall w pv rd, results_distinct (mkSession s' w rn pv rd).
Proof.
  intros (_ & _ & _ & Ht) Hp Hr -> w pv rd. unfold results_distinct. cbn.
  rewrite Hr. repeat split; [exact Hp | constructor | constructor |].
  eapply Forall_impl; [|exact Ht]. intros t. apply task_ahead_nil.
Qed.

Lemma results_distinct_same x s' :
  results_distinct x ->
  pages s' = pages (view x) -> results s' = results (view x) ->
  forall w pv rd, results_distinct (mkSession s' w (runs x) pv rd).
Proof.
  intros (H1 & H2 & H3 & H4) Hp Hr w pv rd. unfold results_distinct. cbn.
  rewrite Hp, Hr. now repeat split.
Qed.

Lemma handle_results_distinct ev x x' :
  single_run x -> results_distinct x -> handle ev x = Some x' ->
  results_distinct x'.
Proof.
  intros Single Inv. unfold handle.
  destruct ev as [f|i o| |i o| |o| | |e|t|sp].
  - destruct (shows_upload (view x)); [|discriminate].
    intros H; injection H as <-. now apply results_distinct_same.
  - destruct (nth_error (reads x) i); [|discriminate].
    intros H; injection H as <-. destruct o as [text|err].
    + apply (results_distinct_cleared x); try reflexivity; [exact Inv|].
      cbn. apply segment_ids.
    + now apply results_distinct_same.
  - destruct (shows_setup (view x)) eqn:V; [|discriminate].
    destruct (shows_setup_idle _ V) as (Hi & Hp & _).
    unfold generateAll.
    destruct (pages (view x)) as [|p ps] eqn:E; [congruence|]. cbn.
    intros H; injection H as <-.
    destruct Inv as (Hids & _ & _ & Ht).
    unfold results_distinct. cbn. rewrite E.
    repeat split; [now rewrite <- E | constructor | constructor |].
    rewrite (single_run_idle _ Single Hi). cbn. constructor; [|constructor].
    rewrite E in Hids. cbn in Hids. injection Hids as Hid Hrest.
    split; [|intros a []]. cbn. now rewrite Hid, Hrest.
  - destruct (nth_error (runs x) i) as [t|] eqn:Hn; [|discriminate].
    destruct (single_run_only _ _ _ Single Hn) as (Hr & -> & _).
    destruct Inv as (Hids & Hnd & Hfn & Ht).
    destruct t as [p rest cfg].
    rewrite Hr in *. apply Forall_inv in Ht. destruct Ht as [Hseq Hlt].
    destruct o as [b|e]; [|destruct e; cbn; intros H; injection H as <-;
                           unfold results_distinct; cbn; now repeat split].
    assert (Hnd' : NoDup (map pageId (results (view x)) ++ [id p])).
    { apply NoDup_app; [exact Hnd | repeat constructor; intros [] |].
      intros n Hin [<- | []]. apply in_map_iff in Hin as (a & Ha & Hin).
      apply Hlt in Hin. lia. }
    destruct rest as [|q rest]; cbn; intros H; injection H as <-;
      unfold results_distinct; cbn; rewrite map_app; cbn;
      (repeat split;
       [ exact Hids | exact Hnd'
       | apply Forall_app; split; [exact Hfn | repeat constructor] | ]).
    + constructor.
    + constructor; [|constructor]. cbn in Hseq. injection Hseq as Hq Hrest.
      split.
      * cbn. now rewrite Hq, Hrest.
      * intros a Ha. apply in_app_iff in Ha as [Ha | [<- | []]]; cbn.
        -- apply Hlt in Ha. lia.
        -- lia.
  - destruct (shows_setup (view x)); [|discriminate].
    unfold previewSample. destruct (pages (view x));
      intros H; injection H as <-; now apply results_distinct_same.
  - destruct (previews x); [discriminate|].
    destruct o as [b|err]; cbn; intros H; injection H as <-;
      now apply results_distinct_same.
  - destruct (shows_setup (view x) || shows_results (view x)); [|discriminate].
    intros H; injection H as <-.
    now apply (results_distinct_cleared x).
  - destruct (error (view x)) as [v|]; [destruct (truthy v)|]; try discriminate.
    intros H; injection H as <-. now apply results_distinct_same.
  - destruct (shows_setup (view x)); [|discriminate].
    intros H; injection H as <-. now apply results_distinct_same.
  - destruct (shows_setup (view x)); [|discriminate].
    intros H; injection H as <-. now apply results_distinct_same.
  - destruct (shows_setup (view x)); [|discriminate].
    intros H; injection H as <-. now apply results_distinct_same.
Qed.

Lemma start_results_distinct : results_distinct start.
Proof. unfold results_distinct. cbn. repeat split; constructor. Qed.

Lemma reachable_single_and_distinct evs x :
  play_events evs start = Some x -> single_run x /\ results_distinct x.
Proof.
  apply (play_events_invariant (fun y => single_run y /\ results_distinct y)).
  - intros ev y y' [H1 H2] H. split.
    + exact (handle_single_run ev y y' H1 H).
    + exact (handle_results_distinct ev y y' H1 H2 H).
  - split; [exact start_single_run | exact start_results_distinct].
Qed.

(** X13.  In every session reached through the controls, whatever was
    reset or loaded while calls were pending: the pages are numbered
    1, 2, ... in order; the results carry pairwise different page ids
    (so the React keys of the clip list never clash), each under the
    name "Page_<pageId>.wav"; and the archive of [downloadAll] holds
    exactly one entry per result, in the order of [results]. *)
Theorem reachable_results_are_distinct evs x generated :
  play_events evs start = Some x ->
  map id (pages (view x)) = seq 1 (length (pages (view x)))
  /\ NoDup (map pageId (results (view x)))
  /\ (forall a, In a (results (view x)) -> filename a = clip_name (pageId a))
  /\ archive (downloadAll (view x) generated) = map entry (results (view x)).
Proof.
  intros H. destruct (reachable_single_and_distinct evs x H)
    as (_ & Hids & Hnd & Hfn & _).
  split; [exact Hids|]. split; [exact Hnd|]. split.
  - now apply Forall_forall.
  - apply archive_entries_distinct.
    assert (E : map filename (results (view x))
                = map clip_name (map pageId (results (view x)))).
    { rewrite map_map. apply map_ext_in. intros a Ha.
      rewrite Forall_forall in Hfn. now apply Hfn. }
    rewrite E. apply NoDup_map_injective; [exact clip_name_inj | exact Hnd].
Qed.

Lemma reachable_results_are_distinct_witness :
  exists x,
    play_events (firstn 6 session_reset_midrun) start = Some x
    /\ map pageId (results (view x)) = [2]
    /\ archive (downloadAll (view x) (Fulfilled [0%N]))
       = map entry (results (view x)).
Proof.
  destruct (play_events (firstn 6 session_reset_midrun) start) as [x|] eqn:E;
    [|vm_compute in E; discriminate].
  exists x. split; [reflexivity|].
  pose proof (reachable_results_are_distinct _ x (Fulfilled [0%N]) E) as T.
  split; [|exact (proj2 (proj2 (proj2 T)))].
  vm_compute in E. injection E as <-. reflexivity.
Defined.

(** X14.  Loading a file whose text yields no page (empty, white space
    only, or markers only) while nothing is in progress and no results
    are held leaves the page without any control: the file is stored, so
    the upload card is gone; there are no pages, so the configuration
    panel is not rendered; there are no results, so neither is the
    results card.  No user event is possible any more, a reset
    included. *)
Theorem blank_file_leaves_no_control i text x x' :
  segment text = [] ->
  isProcessing (view x) = false ->
  handle (TextSettled i (Fulfilled text)) x = Some x' ->
  shows_upload (view x') = false
  /\ shows_setup (view x') = false
  /\ shows_results (view x') = false
  /\ shows_progress (view x') = false
  /\ forall ev, user_event ev = true -> handle ev x' = None.
Proof.
  intros Hseg Hi. unfold handle at 1.
  destruct (nth_error (reads x) i) as [f|]; [|discriminate].
  intros H.
  remember (commit (parseFile f (Fulfilled text)) (view x)) as s' eqn:Es'.
  assert (U : shows_upload s' = false) by (subst s'; reflexivity).
  assert (S : shows_setup s' = false)
    by (subst s'; unfold shows_setup; cbn; now rewrite Hseg).
  assert (R : shows_results s' = false)
    by (subst s'; unfold shows_results; cbn; apply andb_false_r).
  assert (P : shows_progress s' = false)
    by (subst s'; unfold shows_progress; cbn; now rewrite Hi).
  assert (E : error s' = None) by (subst s'; reflexivity).
  clear Es'. injection H as <-. cbn [view].
  split; [exact U|]. split; [exact S|]. split; [exact R|]. split; [exact P|].
  intros ev Hev. unfold handle. cbn [view].
  destruct ev; try discriminate; rewrite ?U, ?S, ?R, ?E; reflexivity.
Qed.

Lemma blank_file_leaves_no_control_witness :
  exists x',
    handle (TextSettled 0 (Fulfilled (lit "  Page 1  ")))
           (mkSession initial fresh_browser [] 0 [sample_file]) = Some x'
    /\ handle ClickReset x' = None
    /\ handle (ChooseFile other_file) x' = None.
Proof.
  destruct (handle (TextSettled 0 (Fulfilled (lit "  Page 1  ")))
                   (mkSession initial fresh_browser [] 0 [sample_file]))
    as [x'|] eqn:E; [|vm_compute in E; discriminate].
  exists x'. split; [reflexivity|].
  assert (Hseg : segment (lit "  Page 1  ") = []) by (vm_compute; reflexivity).
  pose proof (blank_file_leaves_no_control 0 (lit "  Page 1  ")
                (mkSession initial fresh_browser [] 0 [sample_file]) x' Hseg
                eq_refl E) as T.
  split; apply (proj2 (proj2 (proj2 (proj2 T)))); reflexivity.
Defined.

Lemma drive_settled_iff cfg outs ps s w :
  task (drive outs (after s (loop_head ps cfg w))) = None
  <-> length ps <= length (fulfilled_prefix outs)
      \/ length (fulfilled_prefix outs) < length outs.
Proof.
  revert outs ps s w.
  apply (drive_cases cfg (fun outs ps s w r =>
    task r = None
    <-> length ps <= length (fulfilled_prefix outs)
        \/ length (fulfilled_prefix outs) < length outs)).
  - intros outs s w. cbn. split; [intros _; left; lia | reflexivity].
  - intros p ps s w. cbn. split; [discriminate | lia].
  - intros e outs p ps s w. destruct e; cbn; (split; [intros _; right; lia | reflexivity]).
  - intros b outs p ps s w r H. cbn. rewrite H. lia.
Qed.

(** X15.  A run has settled exactly when the calls for all its pages
    have been fulfilled or one of its calls has been rejected; so it
    settles after at most as many calls as there are pages, and it never
    settles while its calls so far were all fulfilled and pages remain. *)
Theorem run_settles_iff outs s w :
  (task (runAll outs s w) = None
   <-> length (pages s) <= length (fulfilled_prefix outs)
       \/ length (fulfilled_prefix outs) < length outs)
  /\ (length (pages s) <= length outs -> task (runAll outs s w) = None).
Proof.
  assert (H : task (runAll outs s w) = None
              <-> length (pages s) <= length (fulfilled_prefix outs)
                  \/ length (fulfilled_prefix outs) < length outs).
  { destruct (runAll_cases outs s w) as [[E ->] | [Hp ->]].
    - rewrite E. cbn. split; [intros _; left; lia | reflexivity].
    - apply drive_settled_iff. }
  split; [exact H|]. intros Hlen. apply H.
  assert (L : length (fulfilled_prefix outs) <= length outs).
  { clear. induction outs as [|[b|e] outs IH]; cbn; lia. }
  lia.
Qed.

Lemma run_settles_iff_witness :
  length (pages sample_state) <= length [Fulfilled [1%N]; Rejected (mkError None); Fulfilled [3%N]]
  /\ task (runAll [Fulfilled [1%N]; Rejected (mkError None); Fulfilled [3%N]]
                  sample_state fresh_browser) = None.
Proof.
  assert (H : length (pages sample_state)
              <= length [Fulfilled [1%N]; Rejected (mkError None); Fulfilled [3%N]])
    by (vm_compute; lia).
  split; [exact H|].
  exact (proj2 (run_settles_iff _ sample_state fresh_browser) H).
Defined.

(** * A run inside a session *)

Lemma play_events_app evs1 : forall evs2 x,
  play_events (evs1 ++ evs2) x
  = match play_events evs1 x with
    | Some x' => play_events evs2 x'
    | None => None
    end.
Proof.
  induction evs1 as [|ev evs1 IH]; intros evs2 x; cbn; [reflexivity|].
  destruct (handle ev x); [apply IH | reflexivity].
Qed.

(** As long as only the calls of the suspended run settle, the session
    goes the way [drive] says. *)
Lemma play_drive outs : forall r pv rd x',
  play_events (settling outs) (session_of r pv rd) = Some x' ->
  x' = session_of (drive outs r) pv rd.
Proof.
  induction outs as [|o outs IH]; intros [s w t] pv rd x' H.
  - cbn in H. injection H as <-. now destruct t.
  - destruct t as [t0|]; [|discriminate].
    cbn [settling map play_events] in H.
    unfold handle, session_of in H. cbn [view world runs previews reads ui env task pending nth_error] in H.
    destruct (generateAll_resume t0 o w) as [[ups w'] t'] eqn:G.
    cbn [firstn skipn app] in H. rewrite app_nil_r in H.
    change (mkSession (commit ups s) w' (pending t') pv rd)
      with (session_of (mkRun (commit ups s) w' t') pv rd) in H.
    apply IH in H. rewrite H. cbn [drive task ui env]. rewrite G. reflexivity.
Qed.

Lemma play_generate x outs x' :
  runs x = [] ->
  play_events (ClickGenerate :: settling outs) x = Some x' ->
  shows_setup (view x) = true
  /\ x' = session_of (runAll outs (view x) (world x)) (previews x) (reads x).
Proof.
  intros Hr H. cbn [play_events] in H. unfold handle in H.
  destruct (shows_setup (view x)); [|discriminate]. split; [reflexivity|].
  unfold runAll. destruct (generateAll (view x) (world x)) as [[ups w] t].
  rewrite Hr in H. cbn [app] in H.
  change (mkSession (commit ups (view x)) w (pending t) (previews x) (reads x))
    with (session_of (mkRun (commit ups (view x)) w t) (previews x) (reads x)) in H.
  apply play_drive in H. exact H.
Qed.

Lemma reachable_idle evs x :
  play_events evs start = Some x -> shows_setup (view x) = true -> runs x = [].
Proof.
  intros H V. destruct (reachable_single_and_distinct evs x H) as [S _].
  apply (single_run_idle x S). now destruct (shows_setup_idle _ V).
Qed.

(** What a click on the generate button followed by the settling of the
    run's calls, and nothing else, leads to from a reachable session. *)
Lemma reachable_run evs x outs x' :
  play_events evs start = Some x ->
  play_events (ClickGenerate :: settling outs) x = Some x' ->
  shows_setup (view x) = true
  /\ view x' = ui (runAll outs (view x) (world x))
  /\ world x' = env (runAll outs (view x) (world x))
  /\ runs x' = pending (task (runAll outs (view x) (world x))).
Proof.
  intros H0 H.
  assert (V : shows_setup (view x) = true).
  { cbn [play_events] in H. unfold handle in H.
    now destruct (shows_setup (view x)). }
  destruct (play_generate x outs x' (reachable_idle evs x H0 V) H) as [_ ->].
  repeat split. exact V.
Qed.

(** The last of the settling calls found the run still suspended. *)
Lemma reachable_run_pending evs x outs o x' :
  play_events evs start = Some x ->
  play_events (ClickGenerate :: settling (outs ++ [o])) x = Some x' ->
  task (runAll outs (view x) (world x)) <> None.
Proof.
  intros H0 H.
  unfold settling in H. rewrite map_app in H.
  change (ClickGenerate :: map (SpeechSettled 0) outs ++ map (SpeechSettled 0) [o])
    with ((ClickGenerate :: settling outs) ++ [SpeechSettled 0 o]) in H.
  rewrite play_events_app in H.
  destruct (play_events (ClickGenerate :: settling outs) x) as [x1|] eqn:E;
    [|discriminate].
  destruct (reachable_run evs x outs x1 H0 E) as (_ & _ & _ & Hr).
  cbn [play_events] in H. unfold handle in H. rewrite Hr in H.
  destruct (task (runAll outs (view x) (world x))); [discriminate|].
  cbn in H. discriminate.
Qed.

(** * The run and what can come between its calls *)







Lemma runAll_frame outs s w :
  file (ui (runAll outs s w)) = file s
  /\ pages (ui (runAll outs s w)) = pages s
  /\ config (ui (runAll outs s w)) = config s.
Proof.
  destruct (runAll_cases outs s w) as [[_ ->] | [_ ->]]; [now cbn|].
  destruct (drive_frame (config s) outs (pages s) (started s) w)
    as (Hf & Hp & Hc & _).
  now repeat split.
Qed.

Lemma reachable_pages_distinct evs x :
  play_events evs start = Some x -> NoDup (map id (pages (view x))).
Proof.
  intros H. destruct (reachable_single_and_distinct evs x H) as (_ & Hids & _).
  rewrite Hids. apply seq_NoDup.
Qed.

(** X6.  From a click on the generate button in a reachable session, as
    long as nothing but the calls of this run settling happens: the
    progress counter is the number of results, the total is the number
    of pages and the counter does not exceed it; and while a call is
    awaited, it is the call for the page at index [progress.current],
    with the [config] of the moment of the click. *)
Theorem progress_counts_results evs x outs x' :
  play_events evs start = Some x ->
  play_events (ClickGenerate :: settling outs) x = Some x' ->
  current (progress (view x')) = length (results (view x'))
  /\ total (progress (view x')) = length (pages (view x'))
  /\ current (progress (view x')) <= total (progress (view x'))
  /\ (forall p rest c, runs x' = [AwaitSpeech p rest c] ->
        nth_error (pages (view x')) (current (progress (view x'))) = Some p
        /\ c = config (view x)).
Proof.
  intros H0 H.
  destruct (reachable_run evs x outs x' H0 H) as (V & Hv & _ & Hr).
  destruct (shows_setup_idle _ V) as (_ & Hne & _).
  destruct (runAll_progress outs (view x) (world x) Hne) as (H1 & H2 & H3 & H4).
  destruct (runAll_frame outs (view x) (world x)) as (_ & Hp & _).
  rewrite Hv, Hr, Hp. split; [exact H1|]. split; [exact H2|]. split; [exact H3|].
  intros p rest c E. apply H4 with rest.
  destruct (task (runAll outs (view x) (world x))) as [t|]; [|discriminate].
  cbn in E. now injection E as ->.
Qed.

Lemma progress_counts_results_witness :
  exists x x',
    play_events (firstn 2 session_with_reset) start = Some x
    /\ play_events (ClickGenerate :: settling [Fulfilled [1%N]]) x = Some x'
    /\ current (progress (view x')) = length (results (view x'))
    /\ total (progress (view x')) = length (pages (view x')).
Proof.
  destruct (play_events (firstn 2 session_with_reset) start) as [x|] eqn:E0;
    [|vm_compute in E0; discriminate].
  destruct (play_events (ClickGenerate :: settling [Fulfilled [1%N]]) x)
    as [x'|] eqn:E1.
  - exists x, x'. split; [reflexivity|]. split; [exact E1|].
    pose proof (progress_counts_results _ x _ x' E0 E1) as T.
    split; [exact (proj1 T) | exact (proj1 (proj2 T))].
  - vm_compute in E0. injection E0 as <-. vm_compute in E1. discriminate.
Defined.

(** X7.  From a click on the generate button in a reachable session, as
    long as nothing but the calls of this run settling happens, results
    are only ever appended and the progress counter only grows: what is
    shown after more calls have settled extends what was shown
    before. *)
Theorem results_are_appended evs x outs more x1 x2 :
  play_events evs start = Some x ->
  play_events (ClickGenerate :: settling outs) x = Some x1 ->
  play_events (ClickGenerate :: settling (outs ++ more)) x = Some x2 ->
  (exists extra, results (view x2) = results (view x1) ++ extra)
  /\ current (progress (view x1)) <= current (progress (view x2)).
Proof.
  intros H0 H1 H2.
  destruct (reachable_run evs x outs x1 H0 H1) as (_ & -> & _).
  destruct (reachable_run evs x (outs ++ more) x2 H0 H2) as (_ & -> & _).
  apply runAll_appends.
Qed.

Lemma results_are_appended_witness :
  exists x x1 x2,
    play_events (firstn 2 session_with_reset) start = Some x
    /\ play_events (ClickGenerate :: settling [Fulfilled [1%N]]) x = Some x1
    /\ play_events (ClickGenerate :: settling ([Fulfilled [1%N]] ++ [Fulfilled [2%N]])) x
       = Some x2
    /\ current (progress (view x1)) <= current (progress (view x2)).
Proof.
  destruct (play_events (firstn 2 session_with_reset) start) as [x|] eqn:E0;
    [|vm_compute in E0; discriminate].
  destruct (play_events (ClickGenerate :: settling [Fulfilled [1%N]]) x)
    as [x1|] eqn:E1;
    [|vm_compute in E0; injection E0 as <-; vm_compute in E1; discriminate].
  destruct (play_events
              (ClickGenerate :: settling ([Fulfilled [1%N]] ++ [Fulfilled [2%N]])) x)
    as [x2|] eqn:E2;
    [|vm_compute in E0; injection E0 as <-; vm_compute in E2; discriminate].
  exists x, x1, x2. split; [reflexivity|]. split; [exact E1|]. split; [exact E2|].
  exact (proj2 (results_are_appended _ x _ _ x1 x2 E0 E1 E2)).
Defined.

(** X9.  From a click on the generate button in a reachable session, as
    long as nothing but the calls of this run settling happens,
    [isComplete] holds exactly when the calls for all the pages have
    been fulfilled. *)
Theorem complete_iff_all_fulfilled evs x outs x' :
  play_events evs start = Some x ->
  play_events (ClickGenerate :: settling outs) x = Some x' ->
  (isComplete (view x') = true
   <-> length (pages (view x')) <= length (fulfilled_prefix outs)).
Proof.
  intros H0 H.
  destruct (reachable_run evs x outs x' H0 H) as (V & Hv & _).
  destruct (shows_setup_idle _ V) as (_ & Hne & _).
  destruct (runAll_frame outs (view x) (world x)) as (_ & Hp & _).
  rewrite Hv, Hp. now apply runAll_complete_iff.
Qed.

Lemma complete_iff_all_fulfilled_witness :
  exists x x',
    play_events (firstn 2 session_with_reset) start = Some x
    /\ play_events (ClickGenerate :: settling (map Fulfilled sample_blobs)) x
       = Some x'
    /\ isComplete (view x') = true.
Proof.
  destruct (play_events (firstn 2 session_with_reset) start) as [x|] eqn:E0;
    [|vm_compute in E0; discriminate].
  destruct (play_events (ClickGenerate :: settling (map Fulfilled sample_blobs)) x)
    as [x'|] eqn:E1;
    [|vm_compute in E0; injection E0 as <-; vm_compute in E1; discriminate].
  exists x, x'. split; [reflexivity|]. split; [exact E1|].
  apply (proj2 (complete_iff_all_fulfilled _ x _ x' E0 E1)).
  vm_compute in E0. injection E0 as <-. vm_compute in E1. injection E1 as <-.
  vm_compute. lia.
Defined.

Lemma runAll_fulfilled_pending bs s w :
  task (runAll (map Fulfilled bs) s w) <> None -> length bs < length (pages s).
Proof.
  intros H. destruct (runAll_cases (map Fulfilled bs) s w) as [[_ E] | [_ E]];
    rewrite E in H; [now cbn in H|].
  destruct (Nat.lt_ge_cases (length bs) (length (pages s))) as [L | L];
    [exact L|].
  exfalso. apply H. apply drive_settled_iff. left.
  now rewrite fulfilled_prefix_map.
Qed.

(** X10.  From a click on the generate button in a reachable session,
    when nothing but the calls of this run settling happens and one of
    them is rejected: if it was the very first call, the configuration
    panel with the generate button is rendered again, so the run can be
    retried; if some clips had been made, the panel stays hidden and the
    results card with its reset button is rendered instead.  The
    download button and the upload card are rendered in neither case. *)
Theorem controls_after_failed_run evs x bs e x' :
  play_events evs start = Some x ->
  play_events (ClickGenerate :: settling (map Fulfilled bs ++ [Rejected e])) x
  = Some x' ->
  shows_setup (view x') = (match bs with [] => true | _ :: _ => false end)
  /\ shows_results (view x') = (match bs with [] => false | _ :: _ => true end)
  /\ shows_download (view x') = false
  /\ shows_upload (view x') = false.
Proof.
  intros H0 H.
  destruct (reachable_run evs x _ x' H0 H) as (V & -> & _).
  pose proof (runAll_fulfilled_pending bs (view x) (world x)
                (reachable_run_pending evs x _ _ x' H0 H)) as L.
  assert (Hf : exists f, file (view x) = Some f).
  { unfold shows_setup in V. destruct (file (view x)) as [f|];
      [now exists f | discriminate]. }
  destruct Hf as [f Hf].
  destruct (skipn (length bs) (pages (view x))) as [|pk post] eqn:Es.
  - apply (f_equal (@length _)) in Es. rewrite length_skipn in Es.
    cbn in Es. lia.
  - assert (Hp : pages (view x)
                 = firstn (length bs) (pages (view x)) ++ pk :: post)
      by (rewrite <- Es; symmetry; apply firstn_skipn).
    assert (Hlen : length bs = length (firstn (length bs) (pages (view x))))
      by (rewrite firstn_length_le; lia).
    pose proof (runAll_failed_controls (view x) (world x) _ pk post bs e [] f
                  Hp Hlen Hf) as T. cbv zeta in T.
    destruct (firstn (length bs) (pages (view x))); destruct bs;
      try discriminate; exact T.
Qed.

Lemma controls_after_failed_run_witness :
  exists x x',
    play_events (firstn 2 session_with_reset) start = Some x
    /\ play_events (ClickGenerate :: settling (map Fulfilled [] ++ [Rejected nullish])) x
       = Some x'
    /\ shows_setup (view x') = true.
Proof.
  destruct (play_events (firstn 2 session_with_reset) start) as [x|] eqn:E0;
    [|vm_compute in E0; discriminate].
  destruct (play_events
              (ClickGenerate :: settling (map Fulfilled [] ++ [Rejected nullish])) x)
    as [x'|] eqn:E1;
    [|vm_compute in E0; injection E0 as <-; vm_compute in E1; discriminate].
  exists x, x'. split; [reflexivity|]. split; [exact E1|].
  exact (proj1 (controls_after_failed_run _ x [] nullish x' E0 E1)).
Defined.

(** X12.  From a click on the generate button in a reachable session,
    when nothing but the calls of this run settling happens and the
    calls for all the pages are fulfilled: the download button is
    rendered and the archive holds exactly one entry per page, in page
    order, named "Page_<id>.wav" and holding the blob returned for that
    page. *)
Theorem download_after_full_run evs x bs x' generated :
  play_events evs start = Some x ->
  play_events (ClickGenerate :: settling (map Fulfilled bs)) x = Some x' ->
  length bs = length (pages (view x)) ->
  shows_download (view x') = true
  /\ archive (downloadAll (view x') generated)
     = map (fun pb => (clip_name (id (fst pb)), snd pb))
           (combine (pages (view x')) bs)
  /\ length (archive (downloadAll (view x') generated))
     = length (pages (view x')).
Proof.
  intros H0 H Hlen.
  destruct (reachable_run evs x _ x' H0 H) as (V & Hv & _).
  destruct (shows_setup_idle _ V) as (_ & Hne & _).
  destruct (runAll_frame (map Fulfilled bs) (view x) (world x)) as (_ & Hp & _).
  rewrite Hv, Hp.
  exact (runAll_download (view x) (world x) bs generated
           (reachable_pages_distinct evs x H0) Hne Hlen).
Qed.

Lemma download_after_full_run_witness :
  exists x x',
    play_events (firstn 2 session_with_reset) start = Some x
    /\ play_events (ClickGenerate :: settling (map Fulfilled sample_blobs)) x
       = Some x'
    /\ length sample_blobs = length (pages (view x))
    /\ shows_download (view x') = true
    /\ length (archive (downloadAll (view x') (Fulfilled [0%N]))) = 3.
Proof.
  destruct (play_events (firstn 2 session_with_reset) start) as [x|] eqn:E0;
    [|vm_compute in E0; discriminate].
  destruct (play_events (ClickGenerate :: settling (map Fulfilled sample_blobs)) x)
    as [x'|] eqn:E1;
    [|vm_compute in E0; injection E0 as <-; vm_compute in E1; discriminate].
  assert (Hlen : length sample_blobs = length (pages (view x)))
    by (vm_compute in E0; injection E0 as <-; vm_compute; reflexivity).
  exists x, x'. split; [reflexivity|]. split; [exact E1|]. split; [exact Hlen|].
  pose proof (download_after_full_run _ x _ x' (Fulfilled [0%N]) E0 E1 Hlen)
    as T.
  split; [exact (proj1 T)|]. rewrite (proj2 (proj2 T)).
  vm_compute in E0. injection E0 as <-. vm_compute in E1. injection E1 as <-.
  reflexivity.
Defined.
